(** * Sahana Eden Mobile: the synchronisation service (emSync) and the
      validation rule encoder (emValidate)

    A shallow embedding of [www/services/sync.js] and of the rule table
    of the validation service, with the properties of the job queue, the
    form list resolver, the job generator and the driver.

    The service is single-threaded JavaScript: a call runs to its end,
    and whatever it leaves for later (a server request with its two
    callbacks, a promise callback, a timer) is kept in the state as an
    outstanding task, which an event of the environment completes. *)

From stdpp Require Import base option list gmap strings.
From Stdlib Require Import ZArith Lia.

Open Scope string_scope.
Open Scope list_scope.

(** ** Data model *)

(** [job.status] is one of four string constants; no other value is ever
    assigned to it. *)
Inductive Status := pending | active | success | error.

#[global] Instance Status_eq_dec : EqDecision Status.
Proof. solve_decision. Defined.

(** The reference of a form: [{c: controller, f: function, vars: vars}]. *)
Record Ref := mkRef {
  ref_c : string;
  ref_f : string;
  ref_vars : list (string * string)
}.

(** A [SyncJob] object. *)
Record SyncJob := mkJob {
  job_type : string;
  job_mode : string;
  job_tableName : string;
  job_ref : Ref;
  job_status : Status
}.

(** A form description as the server lists it: [{n: .., t: .., r: ..}]. *)
Record FormData := mkFormData {
  n : string;
  t : string;
  r : Ref
}.

(** An entry of the form list. [download] is read from another object
    by [updateFormList] and may come out [undefined], which is [None]. *)
Record FormEntry := mkEntry {
  name : string;
  tableName : string;
  ref : Ref;
  installed : bool;
  download : option bool
}.

(** The response object of a failed server request. *)
Record Response := mkResponse {
  resp_status : Z;
  resp_text : string
}.

(** JavaScript truthiness of a [download] value. *)
Definition truthy (d : option bool) : bool :=
  match d with
  | Some true => true
  | _ => false
  end.

(** The state of a [$q] deferred made by [getFormList]. *)
Inductive PState :=
  | PPending
  | PResolved (formList : list FormEntry)
  | PRejected (response : Response).

(** What is left for later.  A task holds what its callbacks close over. *)
Inductive Task :=
  | TGetForm (job : nat)
  | TFormList (deferred : nat)
  | TTables (deferred : nat) (data : list FormData)
  | TThen (promise : nat)
  | TTimeout.

(** Calls made to the collaborators, oldest first. *)
Inductive Call :=
  | CGetForm (tableName : string) (ref : Ref)
  | CFormList
  | CTables
  | CHttpError (response : Response)
  | CTimeout (delay : Z).

(** The closure state of the service, the flag on [$rootScope], and the
    job objects, which the queue and the callbacks hold by reference
    (a reference is an index into [heap]). *)
Record State := mkState {
  heap : list SyncJob;
  syncJobs : list nat;
  statusUpdate : bool;
  syncInProgress : bool;
  promises : list PState;
  tasks : list Task;
  calls : list Call
}.

(** The service as it is made: no job, no promise, nothing outstanding;
    the flag, which is not set before the first call, reads as false. *)
Definition init : State :=
  {| heap := []; syncJobs := []; statusUpdate := false;
     syncInProgress := false; promises := []; tasks := []; calls := [] |}.

Definition set_heap (h : list SyncJob) (s : State) : State :=
  {| heap := h; syncJobs := syncJobs s; statusUpdate := statusUpdate s;
     syncInProgress := syncInProgress s; promises := promises s;
     tasks := tasks s; calls := calls s |}.

Definition set_syncJobs (q : list nat) (s : State) : State :=
  {| heap := heap s; syncJobs := q; statusUpdate := statusUpdate s;
     syncInProgress := syncInProgress s; promises := promises s;
     tasks := tasks s; calls := calls s |}.

Definition set_statusUpdate (b : bool) (s : State) : State :=
  {| heap := heap s; syncJobs := syncJobs s; statusUpdate := b;
     syncInProgress := syncInProgress s; promises := promises s;
     tasks := tasks s; calls := calls s |}.

Definition set_syncInProgress (b : bool) (s : State) : State :=
  {| heap := heap s; syncJobs := syncJobs s; statusUpdate := statusUpdate s;
     syncInProgress := b; promises := promises s;
     tasks := tasks s; calls := calls s |}.

Definition set_promises (ps : list PState) (s : State) : State :=
  {| heap := heap s; syncJobs := syncJobs s; statusUpdate := statusUpdate s;
     syncInProgress := syncInProgress s; promises := ps;
     tasks := tasks s; calls := calls s |}.

Definition set_tasks (ts : list Task) (s : State) : State :=
  {| heap := heap s; syncJobs := syncJobs s; statusUpdate := statusUpdate s;
     syncInProgress := syncInProgress s; promises := promises s;
     tasks := ts; calls := calls s |}.

Definition set_calls (cs : list Call) (s : State) : State :=
  {| heap := heap s; syncJobs := syncJobs s; statusUpdate := statusUpdate s;
     syncInProgress := syncInProgress s; promises := promises s;
     tasks := tasks s; calls := cs |}.

Definition later (k : Task) (s : State) : State := set_tasks (tasks s ++ [k]) s.
Definition call (c : Call) (s : State) : State := set_calls (calls s ++ [c]) s.

(** ** The job queue and the status aggregator *)

(** [job.status == 'pending' || job.status == 'active'] *)
Definition is_open (st : Status) : bool :=
  bool_decide (st = pending) || bool_decide (st = active).

Definition job_open (h : list SyncJob) (j : nat) : bool :=
  match h !! j with
  | Some job => is_open (job_status job)
  | None => false
  end.

(** The jobs of the queue, as objects. *)
Definition queue_jobs (s : State) : list SyncJob :=
  omap (λ j, heap s !! j) (syncJobs s).

Definition updateSyncStatus (s : State) : State :=
  if statusUpdate s then
    later TTimeout (call (CTimeout 100) s)
  else
    let s := set_statusUpdate true s in
    let openJobs := filter (λ j, job_open (heap s) j = true) (syncJobs s) in
    let s := set_syncJobs openJobs s in
    let s := if bool_decide (0 < length openJobs)
             then set_syncInProgress true s
             else set_syncInProgress false s in
    set_statusUpdate false s.

(** ** Jobs *)

Definition new_SyncJob (type mode tableName : string) (ref : Ref) : SyncJob :=
  {| job_type := type; job_mode := mode; job_tableName := tableName;
     job_ref := ref; job_status := pending |}.

Definition with_status (st : Status) (job : SyncJob) : SyncJob :=
  {| job_type := job_type job; job_mode := job_mode job;
     job_tableName := job_tableName job; job_ref := job_ref job;
     job_status := st |}.

(** [self.status = st] *)
Definition set_status (self : nat) (st : Status) (s : State) : State :=
  match heap s !! self with
  | Some job => set_heap (<[self := with_status st job]> (heap s)) s
  | None => s
  end.

(** [SyncJob.prototype.run]: the request goes out, its two callbacks stay
    behind as the task [TGetForm self]. *)
Definition run (self : nat) (s : State) : State :=
  match heap s !! self with
  | Some job =>
      if bool_decide (job_status job ≠ pending) then s
      else
        let s := set_status self active s in
        later (TGetForm self)
              (call (CGetForm (job_tableName job) (job_ref job)) s)
  | None => s
  end.

(** The success and the error callback of [run]. *)
Definition run_success (self : nat) (s : State) : State :=
  updateSyncStatus (set_status self success s).

Definition run_error (self : nat) (response : Response) (s : State) : State :=
  updateSyncStatus (set_status self error s).

(** ** The form list *)

(** [items = {}] is an ordinary object: besides the properties assigned
    to it, it has those of its prototype chain.  The chain ends in
    [Object.prototype]; assigning to ["__proto__"] puts the assigned
    object in front of it. *)
Definition object_prototype_keys : list string :=
  ["constructor"; "hasOwnProperty"; "isPrototypeOf"; "propertyIsEnumerable";
   "toLocaleString"; "toString"; "valueOf"; "__defineGetter__";
   "__defineSetter__"; "__lookupGetter__"; "__lookupSetter__"].

Record Items := mkItems {
  own : gmap string FormEntry;
  proto : option FormEntry
}.

(** What [items[tableName]] yields: a form entry, some other value that
    is not [undefined] (a string, a boolean, a function, another
    object), or [undefined]. *)
Inductive Item :=
  | IEntry (e : FormEntry)
  | IOther
  | IUndefined.

(** [items[k] = item] *)
Definition items_set (k : string) (item : FormEntry) (items : Items) : Items :=
  if decide (k = "__proto__") then
    {| own := own items; proto := Some item |}
  else
    {| own := <[k := item]> (own items); proto := proto items |}.

(** The property [k] of a form entry standing in the prototype chain. *)
Definition entry_get (k : string) (e : FormEntry) : Item :=
  if decide (k = "name") then IOther
  else if decide (k = "tableName") then IOther
  else if decide (k = "ref") then IOther
  else if decide (k = "installed") then IOther
  else if decide (k = "download") then
    match download e with Some _ => IOther | None => IUndefined end
  else if decide (k ∈ object_prototype_keys) then IOther
  else IUndefined.

(** [items[k]] *)
Definition items_get (k : string) (items : Items) : Item :=
  if decide (k = "__proto__") then
    match proto items with Some p => IEntry p | None => IOther end
  else
    match own items !! k with
    | Some e => IEntry e
    | None =>
        match proto items with
        | Some p => entry_get k p
        | None =>
            if decide (k ∈ object_prototype_keys) then IOther else IUndefined
        end
    end.

(** [item.download], for an [item] that is not [undefined]. *)
Definition item_download (item : Item) : option bool :=
  match item with
  | IEntry e => download e
  | _ => None
  end.

(** [tables.indexOf(x)] *)
Fixpoint indexOf (l : list string) (x : string) : Z :=
  match l with
  | [] => -1
  | y :: l' =>
      if decide (y = x) then 0
      else let i := indexOf l' x in
           if decide (i = -1) then -1 else 1 + i
  end%Z.

(** The body of the loop over [data]: the entry made for one form of
    the catalog. *)
Definition form_entry (items : Items) (tables : list string)
    (formData : FormData) : FormEntry :=
  let tableName := t formData in
  let installed :=
    if decide (indexOf tables tableName = (-1)%Z) then false else true in
  let download := Some true in
  let item := items_get tableName items in
  let download :=
    match item with
    | IUndefined => download
    | _ => item_download item
    end in
  {| name := n formData; tableName := tableName; ref := r formData;
     installed := installed; download := download |}.

(** The dictionary built from the current list. *)
Definition form_items (currentList : list FormEntry) : Items :=
  foldl (λ items item, items_set (tableName item) item items)
        {| own := ∅; proto := None |} currentList.

Definition updateFormList
    (currentList : list FormEntry) (tables : list string)
    (data : list FormData) : list FormEntry :=
  let items := form_items currentList in
  foldl (λ formList formData, formList ++ [form_entry items tables formData])
        [] data.

(** ** The form list resolver *)

(** [deferred.resolve(v)] and [deferred.reject(r)]: a settled promise
    stays as it is. *)
Definition settle (p : nat) (v : PState) (s : State) : State :=
  match promises s !! p with
  | Some PPending => set_promises (<[p := v]> (promises s)) s
  | _ => s
  end.

(** [getFormList]: the deferred it makes is the next index of [promises].
    [None] is a missing list. *)
Definition getFormList (formList : option (list FormEntry)) (s : State)
    : nat * State :=
  let deferred := length (promises s) in
  let s := set_promises (promises s ++ [PPending]) s in
  match formList with
  | Some (e :: l) => (deferred, settle deferred (PResolved (e :: l)) s)
  | _ => (deferred, later (TFormList deferred) (call CFormList s))
  end.

(** The success callback of [emServer.formList]: it asks for the tables. *)
Definition formList_success (deferred : nat) (data : list FormData)
    (s : State) : State :=
  later (TTables deferred data) (call CTables s).

(** The callback on the promise of [emDB.tables()]. *)
Definition tables_then (deferred : nat) (data : list FormData)
    (tableNames : list string) (s : State) : State :=
  settle deferred (PResolved (updateFormList [] tableNames data)) s.

(** The error callback of [emServer.formList]. *)
Definition formList_error (deferred : nat) (response : Response)
    (s : State) : State :=
  let s := updateSyncStatus s in
  let s := call (CHttpError response) s in
  settle deferred (PRejected response) s.

(** ** The job generator *)

(** [syncJobs.push(job)] for a new object [job]. *)
Definition push_job (job : SyncJob) (s : State) : State :=
  let self := length (heap s) in
  set_syncJobs (syncJobs s ++ [self]) (set_heap (heap s ++ [job]) s).

Definition generateSyncJobs (formList : list FormEntry) (s : State)
    : nat * State :=
  foldl (λ '(jobsScheduled, s) form,
           if truthy (download form) then
             let job := new_SyncJob "form" "pull" (tableName form) (ref form) in
             (S jobsScheduled, push_job job s)
           else (jobsScheduled, s))
        (0, s) formList.

(** ** The driver *)

(** The status of the job behind a reference. *)
Definition status_at (s : State) (j : nat) : option Status :=
  job_status <$> heap s !! j.

Definition synchronize (forms : option (list FormEntry)) (s : State) : State :=
  let s := set_syncInProgress true s in
  if bool_decide (0 < length (syncJobs s)) then
    foldl (λ s job,
             if bool_decide (status_at s job = Some pending) then run job s
             else s)
          s (syncJobs s)
  else
    let '(promise, s) := getFormList forms s in
    later (TThen promise) s.

(** The callback that [synchronize] passes to [then]. *)
Definition synchronize_then (formList : list FormEntry) (s : State) : State :=
  let '(jobsScheduled, s) := generateSyncJobs formList s in
  if bool_decide (0 < jobsScheduled) then synchronize (Some formList) s
  else updateSyncStatus s.

(** ** Events *)

#[global] Instance Ref_eq_dec : EqDecision Ref.
Proof. solve_decision. Defined.
#[global] Instance FormData_eq_dec : EqDecision FormData.
Proof. solve_decision. Defined.
#[global] Instance FormEntry_eq_dec : EqDecision FormEntry.
Proof. solve_decision. Defined.
#[global] Instance Response_eq_dec : EqDecision Response.
Proof. solve_decision. Defined.
#[global] Instance Task_eq_dec : EqDecision Task.
Proof. solve_decision. Defined.

(** Modelled from the spec: the collaborators [emServer] ([getForm],
    [formList], [httpError]), [emDB] ([tables]), [$q] and [$timeout] are
    not part of the sources.  They are taken as the specification
    describes them: single-threaded and callback-driven, each request
    answered later, once, by its success or by its error callback, and a
    callback given to [then] run later as well.  An event is what the
    environment does: a call of the API, the answer to a request, a
    promise callback that comes to run, a timer that fires. *)
Inductive Event :=
  | EvSynchronize (forms : option (list FormEntry))
  | EvGetFormOk (job : nat)
  | EvGetFormErr (job : nat) (response : Response)
  | EvFormListOk (deferred : nat) (data : list FormData)
  | EvFormListErr (deferred : nat) (response : Response)
  | EvTablesOk (deferred : nat) (tableNames : list string)
  | EvThen (promise : nat)
  | EvTimeout.

(** Take the first occurrence of a task out of the outstanding ones. *)
Fixpoint take_task (k : Task) (ts : list Task) : option (list Task) :=
  match ts with
  | [] => None
  | k' :: ts' =>
      if decide (k' = k) then Some ts'
      else cons k' <$> take_task k ts'
  end.

(** Take out the tables query made for a deferred, with its data. *)
Fixpoint take_tables (deferred : nat) (ts : list Task)
    : option (list FormData * list Task) :=
  match ts with
  | [] => None
  | TTables d data :: ts' =>
      if decide (d = deferred) then Some (data, ts')
      else prod_map id (cons (TTables d data)) <$> take_tables deferred ts'
  | k' :: ts' => prod_map id (cons k') <$> take_tables deferred ts'
  end.

(** One event.  [None]: nothing outstanding answers to the event.  An
    answer completes its request once; a callback given to [then] runs
    once its promise is resolved, and is dropped when it is rejected. *)
Definition step (ev : Event) (s : State) : option State :=
  match ev with
  | EvSynchronize forms => Some (synchronize forms s)
  | EvGetFormOk job =>
      ts ← take_task (TGetForm job) (tasks s);
      Some (run_success job (set_tasks ts s))
  | EvGetFormErr job response =>
      ts ← take_task (TGetForm job) (tasks s);
      Some (run_error job response (set_tasks ts s))
  | EvFormListOk deferred data =>
      ts ← take_task (TFormList deferred) (tasks s);
      Some (formList_success deferred data (set_tasks ts s))
  | EvFormListErr deferred response =>
      ts ← take_task (TFormList deferred) (tasks s);
      Some (formList_error deferred response (set_tasks ts s))
  | EvTablesOk deferred tableNames =>
      '(data, ts) ← take_tables deferred (tasks s);
      Some (tables_then deferred data tableNames (set_tasks ts s))
  | EvThen promise =>
      ts ← take_task (TThen promise) (tasks s);
      match promises s !! promise with
      | Some (PResolved formList) =>
          Some (synchronize_then formList (set_tasks ts s))
      | Some (PRejected _) => Some (set_tasks ts s)
      | _ => None
      end
  | EvTimeout =>
      ts ← take_task TTimeout (tasks s);
      Some (updateSyncStatus (set_tasks ts s))
  end.

(** A sequence of events, oldest first. *)
Fixpoint steps (evs : list Event) (s : State) : option State :=
  match evs with
  | [] => Some s
  | ev :: evs' => s' ← step ev s; steps evs' s'
  end.

(** The states the service can be in between two events. *)
Inductive reachable : State → Prop :=
  | reachable_init : reachable init
  | reachable_step s ev s' :
      reachable s → step ev s = Some s' → reachable s'.

(** ** Validation rules *)

Module emValidate.

(** A bound of a range rule, [options.min] or [options.max], when it is
    given: a number, a string, a boolean or [null].  The rules ask three
    things of such a value [v], and it is known here by the answers:
    [isNaN(v - 0)], whether [v] is truthy, and the string ['' + v]. *)
Record Bound := mkBound {
  bound_isNaN : bool;
  bound_truthy : bool;
  bound_text : string
}.

(** The options of a rule, an object [{error: .., min: .., max: ..}],
    each of them possibly missing ([None]: [undefined]). *)
Record Options := mkOptions {
  opt_error : option string;
  opt_min : option Bound;
  opt_max : option Bound
}.

(** [{}] *)
Definition no_options : Options :=
  {| opt_error := None; opt_min := None; opt_max := None |}.

(** What a rule returns. *)
Record Rule := mkRule {
  directives : gmap string string;
  errors : list string;
  message : string
}.

(** [!x] for a string that may be missing. *)
Definition falsy (x : option string) : bool :=
  match x with
  | None => true
  | Some x => bool_decide (x = "")
  end.

Definition isNotEmpty (options : Options) : Rule :=
  let errorMsg := opt_error options in
  let errorMsg := if falsy errorMsg then "Enter a value" else default "" errorMsg in
  {| directives := {[ "ng-required" := "true" ]};
     errors := ["required"];
     message := errorMsg |}.

(** What the variable [min] or [max] of a range rule holds: nothing,
    the value of the options, or the string it has been replaced by. *)
Inductive Held :=
  | HUndefined
  | HValue (v : Bound)
  | HString (s : string).

(** [options.min] *)
Definition held (bound : option Bound) : Held :=
  match bound with
  | Some v => HValue v
  | None => HUndefined
  end.

(** [if (min)] *)
Definition held_truthy (h : Held) : bool :=
  match h with
  | HUndefined => false
  | HValue v => bound_truthy v
  | HString s => negb (bool_decide (s = ""))
  end.

(** ['..' + min] *)
Definition held_text (h : Held) : string :=
  match h with
  | HUndefined => "undefined"
  | HValue v => bound_text v
  | HString s => s
  end.

(** The range part shared, line by line, by [isIntInRange] and
    [isFloatInRange]: [kind] is "an integer" or "a number". *)
Definition inRange (directives : gmap string string) (errors : list string)
    (kind : string) (options : Options) : Rule :=
  let min := held (opt_min options) in
  let max := held (opt_max options) in
  let '(min, directives) :=
    match min with
    | HValue v =>
        if negb (bound_isNaN v)
        then (HString (bound_text v), <["min" := bound_text v]> directives)
        else (min, directives)
    | _ => (min, directives)
    end in
  let '(max, directives) :=
    match max with
    | HValue v =>
        if negb (bound_isNaN v)
        then (HString (bound_text v), <["max" := bound_text v]> directives)
        else (max, directives)
    | _ => (max, directives)
    end in
  let errorMsg := opt_error options in
  let '(errorMsg, errors) :=
    if falsy errorMsg then
      if held_truthy min && held_truthy max then
        ("Enter " +:+ kind +:+ " between " +:+ held_text min +:+ " and "
           +:+ held_text max,
         errors ++ ["min"; "max"])
      else if held_truthy min then
        ("Enter " +:+ kind +:+ " >= " +:+ held_text min, errors ++ ["min"])
      else if held_truthy max then
        ("Enter " +:+ kind +:+ " <= " +:+ held_text max, errors ++ ["max"])
      else ("Enter " +:+ kind, errors)
    else (default "" errorMsg, errors) in
  {| directives := directives; errors := errors; message := errorMsg |}.

Definition isIntInRange (options : Options) : Rule :=
  inRange {[ "ng-pattern" := "/^[-+]?[0-9]*$/" ]} ["number"; "pattern"]
          "an integer" options.

Definition isFloatInRange (options : Options) : Rule :=
  inRange ∅ ["number"] "a number" options.

Definition isJson (options : Options) : Rule :=
  let errorMsg := opt_error options in
  let errorMsg :=
    if falsy errorMsg then "Enter a valid JSON expression"
    else default "" errorMsg in
  {| directives := {[ "is-json" := "" ]};
     errors := ["json"; "parse"];
     message := errorMsg |}.

(** [rules[name]]: [rules] is an object literal, so a name it does not
    define is looked up in [Object.prototype]. *)
Inductive Looked :=
  | LRule (rule : Options → Rule)
  | LBuiltin (key : string)
  | LPrototype
  | LUndefined.

Definition rules (name : string) : Looked :=
  if decide (name = "isNotEmpty") then LRule isNotEmpty
  else if decide (name = "isIntInRange") then LRule isIntInRange
  else if decide (name = "isFloatInRange") then LRule isFloatInRange
  else if decide (name = "isJson") then LRule isJson
  else if decide (name ∈ object_prototype_keys) then LBuiltin name
  else if decide (name = "__proto__") then LPrototype
  else LUndefined.

(** What a call returns: [null], the object of a rule, another
    object, a string, or no value at all, a [TypeError] being thrown. *)
Inductive Encoded :=
  | ENull
  | ERule (rule : Rule)
  | EOptions (options : Options)
  | EString (s : string)
  | ETypeError.

(** A function of [Object.prototype] called with no [this] and an
    object as its argument: [Object] returns its argument, [toString]
    names the missing [this], the others need a [this]. *)
Definition call_builtin (key : string) (options : Options) : Encoded :=
  if decide (key = "constructor") then EOptions options
  else if decide (key = "toString") then EString "[object Undefined]"
  else ETypeError.

(** [encode]; [None] is a missing (or [null]) [options]. *)
Definition encode (name : string) (options : option Options) : Encoded :=
  match rules name with
  | LUndefined => ENull
  | rule =>
      let options := default no_options options in
      match rule with
      | LRule rule => ERule (rule options)
      | LBuiltin key => call_builtin key options
      | _ => ETypeError
      end
  end.

End emValidate.

(** ** Notions used in the statements *)

(** The entries of a form list that are marked for download. *)
Definition selected (formList : list FormEntry) : list FormEntry :=
  filter (λ form, download form = Some true) formList.

(** The job that the generator makes for an entry. *)
Definition form_job (form : FormEntry) : SyncJob :=
  {| job_type := "form"; job_mode := "pull"; job_tableName := tableName form;
     job_ref := ref form; job_status := pending |}.

(** The request that [run] makes for the job of an entry. *)
Definition form_call (form : FormEntry) : Call :=
  CGetForm (tableName form) (ref form).

(** A table name that [Object.prototype] does not define. *)
Definition plain_key (k : string) : Prop :=
  (k ∉ object_prototype_keys) ∧ k ≠ "__proto__".

(** The entry of a list that a dictionary built from it keeps for a
    table name: the last one. *)
Definition prior_entry (currentList : list FormEntry) (k : string)
    : option FormEntry :=
  last (filter (λ item, tableName item = k) currentList).

(** The request that [run] makes for the job behind a reference. *)
Definition job_call (s : State) (j : nat) : option Call :=
  (λ job, CGetForm (job_tableName job) (job_ref job)) <$> heap s !! j.

(** The pending jobs among some references. *)
Definition pending_of (s : State) (q : list nat) : list nat :=
  filter (λ j, status_at s j = Some pending) q.

(** The state after the callback of [synchronize] has scheduled and
    started the jobs of the entries [sel]. *)
Definition started (sel : list FormEntry) (s : State) : State :=
  {| heap := heap s ++ map (λ form, with_status active (form_job form)) sel;
     syncJobs := syncJobs s ++ seq (length (heap s)) (length sel);
     statusUpdate := statusUpdate s;
     syncInProgress := true;
     promises := promises s;
     tasks := tasks s ++ map TGetForm (seq (length (heap s)) (length sel));
     calls := calls s ++ map form_call sel |}.

(** The state in which the callback of [synchronize] comes to run when
    one call of the driver, made in [s], has gone on undisturbed: the
    flag is set, the promise is resolved with the list, and the calls
    [cs] have been made to get it. *)
Definition resolved (formList : list FormEntry) (cs : list Call) (s : State)
    : State :=
  {| heap := heap s; syncJobs := syncJobs s; statusUpdate := statusUpdate s;
     syncInProgress := true;
     promises := promises s ++ [PResolved formList];
     tasks := tasks s; calls := calls s ++ cs |}.

(** The jobs whose request is outstanding, and the deferreds whose
    catalog request or table query is outstanding. *)
Definition getform_jobs (ts : list Task) : list nat :=
  omap (λ k, match k with TGetForm job => Some job | _ => None end) ts.

Definition fetch_deferreds (ts : list Task) : list nat :=
  omap (λ k, match k with
             | TFormList d => Some d
             | TTables d _ => Some d
             | _ => None
             end) ts.

Definition then_promises (ts : list Task) : list nat :=
  omap (λ k, match k with TThen p => Some p | _ => None end) ts.

(** What holds of the state between two events. *)
Record Inv (s : State) : Prop := mkInv {
  inv_idle : statusUpdate s = false;
  inv_queue_active : ∀ j, j ∈ syncJobs s → status_at s j = Some active;
  inv_queue_nodup : NoDup (syncJobs s);
  inv_getform_active :
    ∀ j, j ∈ getform_jobs (tasks s) → status_at s j = Some active;
  inv_getform_nodup : NoDup (getform_jobs (tasks s));
  inv_queue_getform : ∀ j, j ∈ syncJobs s → j ∈ getform_jobs (tasks s);
  inv_fetch_pending :
    ∀ p, p ∈ fetch_deferreds (tasks s) → promises s !! p = Some PPending;
  inv_fetch_nodup : NoDup (fetch_deferreds (tasks s));
  inv_then_bound :
    ∀ p, p ∈ then_promises (tasks s) → p < length (promises s);
  inv_no_timeout : TTimeout ∉ tasks s
}.

(** The steps a status may take. *)
Inductive transition : Status → Status → Prop :=
  | pending_active : transition pending active
  | active_success : transition active success
  | active_error : transition active error.

(** How an event may change a job: not at all, or by one step of its
    status and nothing else. *)
Definition job_moves (job job' : SyncJob) : Prop :=
  job' = job ∨
  (transition (job_status job) (job_status job') ∧
   job' = with_status (job_status job') job).

(** The answer to the request of a job: success, or an error with its
    response. *)
Definition answer_event (a : nat * option Response) : Event :=
  match a.2 with
  | None => EvGetFormOk a.1
  | Some response => EvGetFormErr a.1 response
  end.

(** ** Sample data *)

Definition ref0 : Ref := mkRef "incident" "report" [].

Definition job0 : SyncJob :=
  {| job_type := "form"; job_mode := "pull"; job_tableName := "incident";
     job_ref := ref0; job_status := pending |}.

Definition three_jobs : State :=
  {| heap := [with_status success job0; with_status active job0; job0];
     syncJobs := [0; 1; 2]; statusUpdate := false; syncInProgress := false;
     promises := []; tasks := [TGetForm 1]; calls := [] |}.

Definition two_forms : list FormEntry :=
  [ {| name := "Incident"; tableName := "incident"; ref := ref0;
       installed := true; download := Some true |};
    {| name := "Assessment"; tableName := "assessment"; ref := ref0;
       installed := false; download := Some false |} ].

Definition catalog : list FormData :=
  [ {| n := "Incident"; t := "incident"; r := ref0 |};
    {| n := "Assessment"; t := "assessment"; r := ref0 |} ].

(** A run of the service: one call of the driver with a list of two
    forms, of which one is marked; its job is started and succeeds. *)
Definition one_run : list Event :=
  [EvSynchronize (Some two_forms); EvThen 0; EvGetFormOk 0].

Definition after_one_run : State :=
  {| heap := [with_status success job0];
     syncJobs := []; statusUpdate := false; syncInProgress := false;
     promises := [PResolved two_forms]; tasks := [];
     calls := [CGetForm "incident" ref0] |}.

(** The run goes on: a second call of the driver finds the queue empty
    and no list, asks the server, and the request fails. *)
Definition unavailable : Response := mkResponse 503 "Service Unavailable".

Definition failed_fetch : list Event :=
  [EvSynchronize None; EvFormListErr 1 unavailable].

(** The state in which the failure arrives, between the two events. *)
Definition fetching : State :=
  {| heap := [with_status success job0];
     syncJobs := []; statusUpdate := false; syncInProgress := true;
     promises := [PResolved two_forms; PPending];
     tasks := [TFormList 1; TThen 1];
     calls := [CGetForm "incident" ref0; CFormList] |}.

Definition after_failed_fetch : State :=
  {| heap := [with_status success job0];
     syncJobs := []; statusUpdate := false; syncInProgress := false;
     promises := [PResolved two_forms; PRejected unavailable];
     tasks := [TThen 1];
     calls := [CGetForm "incident" ref0; CFormList; CHttpError unavailable] |}.

(** Two calls of the driver that overlap.  The first is made without a
    list and waits for the server; the second is made with a list and
    its job is started; then the server answers the first with an empty
    catalog. *)
Definition overlapping : list Event :=
  [EvSynchronize None; EvSynchronize (Some two_forms); EvThen 1;
   EvFormListOk 0 []; EvTablesOk 0 []].

Definition before_pass : State :=
  {| heap := [with_status active job0];
     syncJobs := [0]; statusUpdate := false; syncInProgress := true;
     promises := [PResolved []; PResolved two_forms];
     tasks := [TThen 0; TGetForm 0];
     calls := [CFormList; CGetForm "incident" ref0; CTables] |}.

Definition after_pass : State :=
  {| heap := [with_status active job0];
     syncJobs := [0]; statusUpdate := false; syncInProgress := true;
     promises := [PResolved []; PResolved two_forms];
     tasks := [TGetForm 0];
     calls := [CFormList; CGetForm "incident" ref0; CTables] |}.

(** ** What an event does *)

(** The ways in which an event changes the state of the service between
    two events: a call of the driver with jobs in the queue, with an
    empty queue and a list, with an empty queue and no list; the answer
    to the request of a job; the catalog arriving, or failing; the table
    names arriving; the callback of the driver with nothing to download,
    with something to download, or dropped. *)
Inductive moved (s : State) : State → Prop :=
  | moved_busy :
      syncJobs s ≠ [] →
      moved s (set_syncInProgress true s)
  | moved_cached formList :
      syncJobs s = [] →
      moved s (later (TThen (length (promises s)))
                 (set_promises (promises s ++ [PResolved formList])
                    (set_syncInProgress true s)))
  | moved_fetch :
      syncJobs s = [] →
      moved s (later (TThen (length (promises s)))
                 (later (TFormList (length (promises s)))
                    (call CFormList
                       (set_promises (promises s ++ [PPending])
                          (set_syncInProgress true s)))))
  | moved_answered j st job l1 l2 :
      tasks s = l1 ++ TGetForm j :: l2 →
      heap s !! j = Some job →
      job_status job = active →
      is_open st = false →
      moved s {| heap := <[j := with_status st job]> (heap s);
                 syncJobs := filter (λ i, i ≠ j) (syncJobs s);
                 statusUpdate := false;
                 syncInProgress :=
                   bool_decide (0 < length (filter (λ i, i ≠ j) (syncJobs s)));
                 promises := promises s;
                 tasks := l1 ++ l2;
                 calls := calls s |}
  | moved_catalog p data l1 l2 :
      tasks s = l1 ++ TFormList p :: l2 →
      moved s (later (TTables p data) (call CTables (set_tasks (l1 ++ l2) s)))
  | moved_failed p response l1 l2 :
      tasks s = l1 ++ TFormList p :: l2 →
      promises s !! p = Some PPending →
      moved s (set_promises (<[p := PRejected response]> (promises s))
                 (call (CHttpError response)
                    (set_syncInProgress
                       (bool_decide (0 < length (syncJobs s)))
                       (set_tasks (l1 ++ l2) s))))
  | moved_tables p data tableNames l1 l2 :
      tasks s = l1 ++ TTables p data :: l2 →
      promises s !! p = Some PPending →
      moved s (set_promises
                 (<[p := PResolved (updateFormList [] tableNames data)]>
                    (promises s))
                 (set_tasks (l1 ++ l2) s))
  | moved_none p formList l1 l2 :
      tasks s = l1 ++ TThen p :: l2 →
      promises s !! p = Some (PResolved formList) →
      selected formList = [] →
      moved s (set_syncInProgress (bool_decide (0 < length (syncJobs s)))
                 (set_tasks (l1 ++ l2) s))
  | moved_some p formList l1 l2 :
      tasks s = l1 ++ TThen p :: l2 →
      promises s !! p = Some (PResolved formList) →
      selected formList ≠ [] →
      moved s (started (selected formList) (set_tasks (l1 ++ l2) s))
  | moved_dropped p response l1 l2 :
      tasks s = l1 ++ TThen p :: l2 →
      promises s !! p = Some (PRejected response) →
      moved s (set_tasks (l1 ++ l2) s).

(** The requests for forms among the calls made. *)
Definition is_getForm (c : Call) : bool :=
  match c with CGetForm _ _ => true | _ => false end.

Definition getForm_calls (cs : list Call) : list Call :=
  filter (λ c, is_getForm c = true) cs.

#[global] Instance plain_key_dec (k : string) : Decision (plain_key k).
Proof. unfold plain_key. apply _. Defined.

(** ** Validation directives for a field *)

Module Directives.

(** The object [requires]: rule names with the options of the rule, an
    object or [null] ([None]), in the order in which they were added.  The loop
    over the names of the object visits them in this order, except that
    names that are array indices come first; these are no rules and no
    properties of [Object.prototype], so [encode] gives [null] for them
    and the result is the same. *)
Definition Requires : Type := list (string * option emValidate.Options).

(** What [getDirectives] reads of a field: its type, what
    [field.hasOptions()] returns, and of [field._description] whether
    [required] is set, [requires] and [settings.requires]; [None] at the
    outer level of [field_settings] is a missing [settings]. *)
Record Field := mkField {
  field_type : string;
  field_hasOptions : bool;
  field_required : bool;
  field_requires : option Requires;
  field_settings : option (option Requires)
}.

(** [requires.isNotEmpty === undefined]: no such name in the object. *)
Definition lacks (k : string) (requires : Requires) : bool :=
  bool_decide (k ∉ requires.*1).

(** The validators of a field type, for a field without [requires]. *)
Definition type_default (type : string) : Requires :=
  if decide (type = "double") then
    [("isFloatInRange", Some emValidate.no_options)]
  else if decide (type = "integer") then
    [("isIntInRange", Some emValidate.no_options)]
  else if decide (type = "json") then [("isJson", None)]
  else [].

(** The options of the [isNotEmpty] that is added to a required field. *)
Definition required_options (field : Field)
    : option emValidate.Options :=
  if field_hasOptions field then
    if decide (String.substring 0 5 (field_type field) = "list:") then
      Some {| emValidate.opt_error := Some "Select at least one option";
              emValidate.opt_min := None; emValidate.opt_max := None |}
    else
      Some {| emValidate.opt_error := Some "Select a value";
              emValidate.opt_min := None; emValidate.opt_max := None |}
  else None.

(** [if (rule)], for what [encode] has returned. *)
Definition truthy_rule (rule : emValidate.Encoded) : bool :=
  match rule with
  | emValidate.ENull => false
  | emValidate.EString s => negb (bool_decide (s = ""))
  | _ => true
  end.

(** The loop over [requires]; [None]: a call of [encode] has thrown. *)
Fixpoint collect (requires : Requires) : option (list emValidate.Encoded) :=
  match requires with
  | [] => Some []
  | (ruleName, options) :: requires' =>
      match emValidate.encode ruleName options with
      | emValidate.ETypeError => None
      | rule =>
          if truthy_rule rule then cons rule <$> collect requires'
          else collect requires'
      end
  end.

(** [getDirectives]: the field as the call leaves it, for the call adds
    [isNotEmpty] to the object it has found in the description, and the
    directives, or [None] for a [TypeError]. *)
Definition getDirectives (field : Field)
    : Field * option (list emValidate.Encoded) :=
  let requires :=
    match field_requires field with
    | Some requires => Some requires
    | None =>
        match field_settings field with
        | Some settings_requires => settings_requires
        | None => None
        end
    end in
  let fresh := bool_decide (requires = None) in
  let requires :=
    match requires with
    | Some requires => requires
    | None => type_default (field_type field)
    end in
  let requires :=
    if field_required field && lacks "isNotEmpty" requires then
      requires ++ [("isNotEmpty", required_options field)]
    else requires in
  let field :=
    if fresh then field
    else
      match field_requires field with
      | Some _ =>
          {| field_type := field_type field;
             field_hasOptions := field_hasOptions field;
             field_required := field_required field;
             field_requires := Some requires;
             field_settings := field_settings field |}
      | None =>
          {| field_type := field_type field;
             field_hasOptions := field_hasOptions field;
             field_required := field_required field;
             field_requires := None;
             field_settings := Some (Some requires) |}
      end in
  (field, collect requires).

(** The directive of a rule that is in the table. *)
Definition directive_of (entry : string * option emValidate.Options)
    : option emValidate.Encoded :=
  match emValidate.rules entry.1 with
  | emValidate.LRule rule =>
      Some (emValidate.ERule (rule (default emValidate.no_options entry.2)))
  | _ => None
  end.

End Directives.

(** The bounds that are numbers: the number 0, and a number other than
    0 and [NaN], given by its string. *)
Definition zero_bound : emValidate.Bound :=
  {| emValidate.bound_isNaN := false; emValidate.bound_truthy := false;
     emValidate.bound_text := "0" |}.

Definition number_bound (text : string) : emValidate.Bound :=
  {| emValidate.bound_isNaN := false; emValidate.bound_truthy := true;
     emValidate.bound_text := text |}.




Definition age_field : Directives.Field :=
  {| Directives.field_type := "integer";
     Directives.field_hasOptions := false;
     Directives.field_required := true;
     Directives.field_requires :=
       Some [("isIntInRange",
              Some {| emValidate.opt_error := None;
                      emValidate.opt_min := Some zero_bound;
                      emValidate.opt_max := Some (number_bound "120") |});
             ("isAdult", None)];
     Directives.field_settings := None |}.

Definition note_field : Directives.Field :=
  {| Directives.field_type := "string";
     Directives.field_hasOptions := false;
     Directives.field_required := false;
     Directives.field_requires :=
       Some [("isNotEmpty", None); ("isShort", None); ("isJson", None)];
     Directives.field_settings := None |}.

(** A required field with a selector, its validators in the settings. *)
Definition choice_field : Directives.Field :=
  {| Directives.field_type := "string";
     Directives.field_hasOptions := true;
     Directives.field_required := true;
     Directives.field_requires := None;
     Directives.field_settings := Some (Some [("isShort", None)]) |}.

Definition own_field : Directives.Field :=
  {| Directives.field_type := "string";
     Directives.field_hasOptions := false;
     Directives.field_required := true;
     Directives.field_requires := None;
     Directives.field_settings :=
       Some (Some [("hasOwnProperty", Some emValidate.no_options)]) |}.

Definition odd_field : Directives.Field :=
  {| Directives.field_type := "string";
     Directives.field_hasOptions := false;
     Directives.field_required := false;
     Directives.field_requires :=
       Some [("isNotEmpty", None); ("valueOf", None)];
     Directives.field_settings := None |}.

(** The status that the answer to its request gives a job. *)
Definition answer_status (o : option Response) : Status :=
  match o with
  | None => success
  | Some _ => error
  end.

(** The state between the first two events of [one_run], when the list
    is there and the callback of the driver has yet to run. *)
Definition listed : State :=
  {| heap := []; syncJobs := []; statusUpdate := false; syncInProgress := true;
     promises := [PResolved two_forms]; tasks := [TThen 0]; calls := [] |}.

(** * Properties *)

(** ** The setters *)

Lemma State_eq (a b : State) :
  heap a = heap b → syncJobs a = syncJobs b →
  statusUpdate a = statusUpdate b → syncInProgress a = syncInProgress b →
  promises a = promises b → tasks a = tasks b → calls a = calls b →
  a = b.
Proof. destruct a, b. simpl. by intros -> -> -> -> -> -> ->. Qed.

Lemma set_status_fields self st s :
  syncJobs (set_status self st s) = syncJobs s ∧
  statusUpdate (set_status self st s) = statusUpdate s ∧
  syncInProgress (set_status self st s) = syncInProgress s ∧
  promises (set_status self st s) = promises s ∧
  tasks (set_status self st s) = tasks s ∧
  calls (set_status self st s) = calls s ∧
  length (heap (set_status self st s)) = length (heap s).
Proof.
  unfold set_status. destruct (heap s !! self); simpl; repeat split; try done.
  by rewrite length_insert.
Qed.

Lemma set_status_lookup self st s j :
  heap (set_status self st s) !! j =
  if decide (j = self) then with_status st <$> heap s !! j else heap s !! j.
Proof.
  unfold set_status. destruct (heap s !! self) as [job|] eqn:E; simpl.
  - destruct (decide (j = self)) as [->|].
    + rewrite E. simpl. apply list_lookup_insert_eq. by eapply lookup_lt_Some.
    + by apply list_lookup_insert_ne.
  - destruct (decide (j = self)) as [->|]; [by rewrite E | done].
Qed.

(** ** The status aggregator *)

Lemma omap_step {A B} (f : A → option B) (x : A) (l : list A) :
  omap f (x :: l) =
  match f x with Some y => y :: omap f l | None => omap f l end.
Proof. done. Qed.

Lemma omap_filter_open (h : list SyncJob) (q : list nat) :
  omap (λ j, h !! j) (filter (λ j, job_open h j = true) q) =
  filter (λ job, is_open (job_status job) = true) (omap (λ j, h !! j) q).
Proof.
  induction q as [|j q IH]; [done|].
  rewrite filter_cons.
  destruct (decide (job_open h j = true)) as [Ho|Ho];
    unfold job_open in Ho; rewrite !omap_step;
    destruct (h !! j) as [job|] eqn:E; try done.
  - rewrite filter_cons, decide_True by done. by rewrite IH.
  - rewrite filter_cons, decide_False by done. done.
Qed.

Lemma filter_open_valid (h : list SyncJob) (q : list nat) :
  length (omap (λ j, h !! j) (filter (λ j, job_open h j = true) q)) =
  length (filter (λ j, job_open h j = true) q).
Proof.
  induction q as [|j q IH]; [done|].
  rewrite filter_cons.
  destruct (decide (job_open h j = true)) as [Ho|Ho]; [|done].
  unfold job_open in Ho. rewrite omap_step. destruct (h !! j); [|done].
  simpl. by rewrite IH.
Qed.

Lemma updateSyncStatus_idle s :
  statusUpdate s = false →
  updateSyncStatus s =
  {| heap := heap s;
     syncJobs := filter (λ j, job_open (heap s) j = true) (syncJobs s);
     statusUpdate := false;
     syncInProgress :=
       bool_decide
         (0 < length (filter (λ j, job_open (heap s) j = true) (syncJobs s)));
     promises := promises s; tasks := tasks s; calls := calls s |}.
Proof.
  intros H. unfold updateSyncStatus. rewrite H. simpl.
  by case_bool_decide.
Qed.

(** C1. A status-aggregation pass that runs with the busy flag clear
    leaves in the queue exactly the jobs that were pending or active, in
    their order, changes no job, and sets [syncInProgress] to true if
    such a job remains and to false otherwise; when every job of the
    queue is a success or an error, the flag is false afterwards. *)
Theorem updateSyncStatus_compacts (s : State) :
  statusUpdate s = false →
  let s' := updateSyncStatus s in
  queue_jobs s' =
    filter (λ job, is_open (job_status job) = true) (queue_jobs s) ∧
  syncJobs s' = filter (λ j, job_open (heap s) j = true) (syncJobs s) ∧
  heap s' = heap s ∧
  statusUpdate s' = false ∧
  syncInProgress s' = bool_decide (queue_jobs s' ≠ []) ∧
  ((∀ job, job ∈ queue_jobs s →
      job_status job = success ∨ job_status job = error) →
   syncInProgress s' = false).
Proof.
  intros H s'. subst s'. rewrite (updateSyncStatus_idle s H).
  unfold queue_jobs. simpl.
  pose proof (omap_filter_open (heap s) (syncJobs s)) as Hq.
  pose proof (filter_open_valid (heap s) (syncJobs s)) as Hl.
  assert (Hflag :
    bool_decide
      (0 < length (filter (λ j, job_open (heap s) j = true) (syncJobs s))) =
    bool_decide
      (omap (λ j, heap s !! j)
         (filter (λ j, job_open (heap s) j = true) (syncJobs s)) ≠ [])).
  { apply bool_decide_ext. rewrite <- Hl.
    destruct (omap _ _); simpl; split; (done || lia). }
  repeat split; try done.
  intros Hdone. rewrite Hflag, Hq.
  apply bool_decide_eq_false. intros Hne. apply Hne.
  clear Hq Hl Hflag.
  destruct (filter (λ job : SyncJob, _) _) as [|job l] eqn:Ef; [done|].
  assert (Hin : job ∈ job :: l) by apply list_elem_of_here.
  rewrite <- Ef in Hin. apply list_elem_of_filter in Hin as [Ho Hin].
  destruct (Hdone job Hin) as [E|E]; rewrite E in Ho; discriminate.
Qed.

Lemma updateSyncStatus_compacts_witness :
  syncJobs (updateSyncStatus three_jobs) = [1; 2] ∧
  syncInProgress (updateSyncStatus three_jobs) = true.
Proof.
  pose proof (updateSyncStatus_compacts three_jobs eq_refl) as H.
  split; [exact (proj1 (proj2 H)) | reflexivity].
Defined.

(** ** The job generator *)

Lemma truthy_Some_true d : truthy d = true ↔ d = Some true.
Proof. destruct d as [[]|]; simpl; split; congruence. Qed.

Lemma generateSyncJobs_fold formList : ∀ jobsScheduled s,
  foldl (λ '(jobsScheduled, s) form,
           if truthy (download form) then
             let job := new_SyncJob "form" "pull" (tableName form) (ref form) in
             (S jobsScheduled, push_job job s)
           else (jobsScheduled, s))
        (jobsScheduled, s) formList =
  (jobsScheduled + length (selected formList),
   {| heap := heap s ++ map form_job (selected formList);
      syncJobs :=
        syncJobs s ++ seq (length (heap s)) (length (selected formList));
      statusUpdate := statusUpdate s; syncInProgress := syncInProgress s;
      promises := promises s; tasks := tasks s; calls := calls s |}).
Proof.
  induction formList as [|form formList IH]; intros k s.
  - simpl. rewrite Nat.add_0_r, !app_nil_r. by destruct s.
  - unfold selected in *. rewrite filter_cons. simpl foldl.
    destruct (truthy (download form)) eqn:E.
    + apply truthy_Some_true in E. rewrite decide_True by done.
      rewrite IH. simpl. rewrite length_app. simpl.
      rewrite <- !app_assoc. simpl.
      replace (length (heap s) + 1) with (S (length (heap s))) by lia.
      f_equal. lia.
    + rewrite decide_False
        by (intros E'; apply truthy_Some_true in E'; congruence).
      apply IH.
Qed.

Lemma generateSyncJobs_eq formList s :
  generateSyncJobs formList s =
  (length (selected formList),
   {| heap := heap s ++ map form_job (selected formList);
      syncJobs :=
        syncJobs s ++ seq (length (heap s)) (length (selected formList));
      statusUpdate := statusUpdate s; syncInProgress := syncInProgress s;
      promises := promises s; tasks := tasks s; calls := calls s |}).
Proof. unfold generateSyncJobs. by rewrite generateSyncJobs_fold. Qed.

(** C2. [generateSyncJobs] returns the number of entries whose download
    flag is true and appends one new pending pull job for each of them,
    in their order, to the queue; nothing else changes, and a list in
    which no entry is marked for download gives 0 and the state as it
    was. *)
Theorem generateSyncJobs_counts (formList : list FormEntry) (s : State) :
  let result := generateSyncJobs formList s in
  result.1 = length (selected formList) ∧
  heap result.2 = heap s ++ map form_job (selected formList) ∧
  syncJobs result.2 = syncJobs s ++ seq (length (heap s)) result.1 ∧
  length (syncJobs result.2) = length (syncJobs s) + result.1 ∧
  Forall (λ job, job_type job = "form" ∧ job_mode job = "pull" ∧
                 job_status job = pending)
         (map form_job (selected formList)) ∧
  (statusUpdate result.2, syncInProgress result.2, promises result.2,
   tasks result.2, calls result.2) =
  (statusUpdate s, syncInProgress s, promises s, tasks s, calls s) ∧
  ((∀ form, form ∈ formList → download form ≠ Some true) →
   result = (0, s)).
Proof.
  intros result. subst result. rewrite generateSyncJobs_eq. simpl.
  repeat split; try done.
  - by rewrite length_app, length_seq.
  - apply Forall_forall. intros job Hin.
    apply list_elem_of_fmap in Hin as [form [-> _]]. done.
  - intros Hnone.
    assert (selected formList = []) as ->.
    { unfold selected. destruct (filter _ _) as [|form l] eqn:Ef; [done|].
      assert (Hin : form ∈ form :: l) by apply list_elem_of_here.
      rewrite <- Ef in Hin. apply list_elem_of_filter in Hin as [Hd Hin].
      by destruct (Hnone form Hin). }
    simpl. rewrite !app_nil_r. by destruct s.
Qed.

Lemma generateSyncJobs_counts_witness :
  generateSyncJobs (drop 1 two_forms) init = (0, init).
Proof.
  apply (generateSyncJobs_counts (drop 1 two_forms) init).
  intros form Hin. apply list_elem_of_singleton in Hin as ->. discriminate.
Defined.

(** ** Running a job *)

(** C4. [run] on a job that is not pending changes nothing: the state
    after the call is the state before it, so the job keeps its status
    and its other fields, no request is made and no status-aggregation
    pass runs. *)
Theorem run_not_pending_noop (s : State) (self : nat) (job : SyncJob) :
  heap s !! self = Some job →
  job_status job ≠ pending →
  run self s = s ∧
  heap (run self s) !! self = Some job ∧
  calls (run self s) = calls s ∧
  tasks (run self s) = tasks s ∧
  syncJobs (run self s) = syncJobs s ∧
  syncInProgress (run self s) = syncInProgress s.
Proof.
  intros Hjob Hst.
  assert (run self s = s) as ->; [|done].
  unfold run. rewrite Hjob. by rewrite bool_decide_eq_true_2.
Qed.

Lemma run_not_pending_noop_witness :
  run 1 three_jobs = three_jobs ∧ run 0 three_jobs = three_jobs.
Proof.
  split.
  - apply (run_not_pending_noop three_jobs 1 (with_status active job0));
      [reflexivity | discriminate].
  - apply (run_not_pending_noop three_jobs 0 (with_status success job0));
      [reflexivity | discriminate].
Defined.

(** ** The form list resolver *)

Lemma settle_fresh (ps : list PState) (v : PState) (s : State) :
  promises s = ps ++ [PPending] →
  settle (length ps) v s = set_promises (ps ++ [v]) s.
Proof.
  intros E. unfold settle. rewrite E.
  rewrite lookup_app_r by lia. rewrite Nat.sub_diag. simpl.
  f_equal. rewrite insert_app_r_alt by lia. by rewrite Nat.sub_diag.
Qed.

(** C8. Given a list that is not empty, [getFormList] returns a new
    promise that is already resolved with that list, and makes no call:
    no catalog request, no table query, nothing left outstanding. *)
Theorem getFormList_cached (form : FormEntry) (l : list FormEntry) (s : State) :
  let result := getFormList (Some (form :: l)) s in
  promises result.2 !! result.1 = Some (PResolved (form :: l)) ∧
  promises s !! result.1 = None ∧
  promises result.2 = promises s ++ [PResolved (form :: l)] ∧
  calls result.2 = calls s ∧
  tasks result.2 = tasks s ∧
  heap result.2 = heap s ∧
  syncJobs result.2 = syncJobs s ∧
  syncInProgress result.2 = syncInProgress s.
Proof.
  intros result. subst result. unfold getFormList. simpl.
  rewrite (settle_fresh (promises s)) by done. simpl.
  repeat split; try done.
  - rewrite lookup_app_r by lia. by rewrite Nat.sub_diag.
  - apply lookup_ge_None. lia.
Qed.

(** ** The form list *)

Lemma foldl_snoc_map {A B} (g : A → B) (l : list A) : ∀ acc,
  foldl (λ acc x, acc ++ [g x]) acc l = acc ++ map g l.
Proof.
  induction l as [|x l IH]; intros acc; simpl.
  - by rewrite app_nil_r.
  - rewrite IH. by rewrite <- app_assoc.
Qed.

Lemma updateFormList_map currentList tables data :
  updateFormList currentList tables data =
  map (form_entry (form_items currentList) tables) data.
Proof. unfold updateFormList. by rewrite foldl_snoc_map. Qed.

Lemma indexOf_absent (l : list string) (x : string) :
  indexOf l x = (-1)%Z ↔ x ∉ l.
Proof.
  induction l as [|y l IH]; simpl.
  - split; [intros _; apply not_elem_of_nil | done].
  - rewrite not_elem_of_cons. destruct (decide (y = x)) as [->|Hne].
    + split; [discriminate | intros [? _]; done].
    + destruct (decide (indexOf l x = (-1)%Z)) as [E|E].
      * split; [intros _; split; [congruence | by apply IH] | done].
      * split; [|intros [_ H]; by apply IH in H].
        assert (-1 ≤ indexOf l x)%Z.
        { clear. induction l as [|z l IH]; simpl; [lia|].
          repeat case_decide; lia. }
        lia.
Qed.

(** C9. The list that [updateFormList] returns has one entry for each
    form of the catalog, in the order of the catalog, with the name, the
    table name and the reference of that form; an entry of the prior
    list whose table name the catalog does not list has no entry in the
    result. *)
Theorem updateFormList_follows_catalog
    (currentList : list FormEntry) (tables : list string)
    (data : list FormData) :
  let formList := updateFormList currentList tables data in
  length formList = length data ∧
  map tableName formList = map t data ∧
  map name formList = map n data ∧
  map ref formList = map r data ∧
  (∀ prior, prior ∈ currentList → tableName prior ∉ map t data →
     ∀ form, form ∈ formList → tableName form ≠ tableName prior).
Proof.
  intros formList. subst formList. rewrite updateFormList_map.
  assert (Hn : map tableName (map (form_entry (form_items currentList) tables) data)
               = map t data).
  { rewrite map_map. by apply map_ext. }
  repeat split.
  - by rewrite length_map.
  - done.
  - rewrite map_map. by apply map_ext.
  - rewrite map_map. by apply map_ext.
  - intros prior _ Hnot form Hin E. apply Hnot. rewrite <- E, <- Hn.
    by apply (list_elem_of_fmap_2 tableName).
Qed.

Lemma updateFormList_follows_catalog_witness :
  Forall (λ form, tableName form ≠ "assessment")
         (updateFormList (drop 1 two_forms) [] (take 1 catalog)).
Proof.
  apply Forall_forall. intros form Hin.
  refine (proj2 (proj2 (proj2 (proj2
    (updateFormList_follows_catalog (drop 1 two_forms) [] (take 1 catalog)))))
    {| name := "Assessment"; tableName := "assessment"; ref := ref0;
       installed := false; download := Some false |} _ _ form Hin).
  - apply list_elem_of_here.
  - simpl. intros Hc. apply list_elem_of_singleton in Hc. discriminate.
Defined.

(** The dictionary of a list that names no table ["__proto__"] keeps its
    prototype and holds, under a table name, the last entry of that
    name. *)
Lemma form_items_plain (currentList : list FormEntry) (k : string) :
  (∀ item, item ∈ currentList → tableName item ≠ "__proto__") →
  proto (form_items currentList) = None ∧
  own (form_items currentList) !! k = prior_entry currentList k.
Proof.
  unfold form_items, prior_entry.
  induction currentList as [|item l IH] using rev_ind; intros Hplain.
  - done.
  - rewrite foldl_app. simpl.
    destruct IH as [IHp IHo].
    { intros i Hi. apply Hplain, elem_of_app. by left. }
    unfold items_set. rewrite decide_False
      by (apply Hplain, elem_of_app; right; apply list_elem_of_here).
    simpl. split; [done|].
    rewrite filter_app, filter_cons, filter_nil.
    destruct (decide (tableName item = k)) as [->|Hne].
    + rewrite lookup_insert_eq. by rewrite last_snoc.
    + rewrite lookup_insert_ne by done. by rewrite app_nil_r.
Qed.

(** What [updateFormList] guarantees for each form of the catalog:
    [installed] tells whether the table exists, and, for a table name
    that is no property of [Object.prototype] and a prior list without a
    table ["__proto__"], [download] is that of the prior entry of the
    same table name, or true when there is none. *)
Lemma updateFormList_entry
    (currentList : list FormEntry) (tables : list string)
    (data : list FormData) (i : nat) (formData : FormData) :
  data !! i = Some formData →
  ∃ form,
    updateFormList currentList tables data !! i = Some form ∧
    tableName form = t formData ∧
    (installed form = true ↔ t formData ∈ tables) ∧
    (plain_key (t formData) →
     (∀ item, item ∈ currentList → tableName item ≠ "__proto__") →
     download form =
       match prior_entry currentList (t formData) with
       | Some prior => download prior
       | None => Some true
       end).
Proof.
  intros Hi. rewrite updateFormList_map.
  exists (form_entry (form_items currentList) tables formData).
  split; [by rewrite list_lookup_fmap, Hi|].
  split; [done|]. split.
  - unfold form_entry. simpl.
    destruct (decide (indexOf tables (t formData) = (-1)%Z)) as [E|E].
    + apply indexOf_absent in E. split; [discriminate | done].
    + split; [intros _ | done].
      destruct (decide (t formData ∈ tables)) as [|Hn]; [done|].
      by apply indexOf_absent in Hn.
  - intros [Hk Hp] Hplain.
    destruct (form_items_plain currentList (t formData) Hplain) as [Hpr Ho].
    unfold form_entry, items_get. simpl.
    rewrite decide_False by done. rewrite Ho, Hpr.
    destruct (prior_entry currentList (t formData)); [done|].
    by rewrite decide_False.
Qed.

(** C3. A form of the catalog whose table name is a property of
    [Object.prototype] gets the [download] flag of that property, which
    is [undefined], not the default: with no prior list at all, the
    entry made for the table ["constructor"] has no [download] flag. *)
Theorem updateFormList_inherited_name :
  updateFormList [] []
    [ {| n := "Constructor"; t := "constructor"; r := ref0 |} ] =
  [ {| name := "Constructor"; tableName := "constructor"; ref := ref0;
       installed := false; download := None |} ].
Proof. reflexivity. Qed.

(** The example of the specification: one table exists, the catalog
    lists two forms. *)
Example updateFormList_example :
  map (λ form, (installed form, download form))
      (updateFormList [] ["incident"] catalog) =
  [(true, Some true); (false, Some true)].
Proof. reflexivity. Qed.

(** A choice made before is kept. *)
Example updateFormList_keeps_choice :
  map download (updateFormList two_forms ["incident"] catalog) =
  [Some true; Some false].
Proof. reflexivity. Qed.

(** ** Validation rules *)

(** The four rules give an object with directives, errors and a
    message, with or without options. *)
Lemma encode_rule (name : string) (options : option emValidate.Options) :
  name ∈ ["isNotEmpty"; "isIntInRange"; "isFloatInRange"; "isJson"] →
  ∃ rule, emValidate.encode name options = emValidate.ERule rule.
Proof.
  intros Hin. unfold emValidate.encode, emValidate.rules.
  repeat (apply elem_of_cons in Hin as [->|Hin]; [by eexists|]).
  by apply elem_of_nil in Hin.
Qed.

(** Missing options are the empty object. *)
Lemma encode_absent_options (name : string) :
  emValidate.encode name None =
  emValidate.encode name (Some emValidate.no_options).
Proof. reflexivity. Qed.

(** A name that is neither a rule nor a property of [Object.prototype]
    gives [null]. *)
Lemma encode_unknown (name : string) (options : option emValidate.Options) :
  name ∉ ["isNotEmpty"; "isIntInRange"; "isFloatInRange"; "isJson"] →
  plain_key name →
  emValidate.encode name options = emValidate.ENull.
Proof.
  intros Hnot [Hk Hp]. unfold emValidate.encode, emValidate.rules.
  repeat (rewrite decide_False;
          [|intros ->; apply Hnot; repeat constructor]).
  rewrite decide_False by done. by rewrite decide_False.
Qed.

(** C10. For a name that [Object.prototype] defines, [encode] finds a
    function where it looks for a rule and calls it: ["toString"] is not
    one of the four rules, and [encode] returns a string for it, not
    [null]; for ["valueOf"] the call throws. *)
Theorem encode_inherited_name :
  emValidate.encode "toString" (Some emValidate.no_options) =
    emValidate.EString "[object Undefined]" ∧
  emValidate.encode "valueOf" None = emValidate.ETypeError.
Proof. split; reflexivity. Qed.

(** ** Running the jobs of the queue *)

Lemma run_skip s j : status_at s j ≠ Some pending → run j s = s.
Proof.
  unfold run, status_at. destruct (heap s !! j) as [job|]; simpl; [|done].
  intros H. rewrite bool_decide_eq_true_2; [done|]. congruence.
Qed.

Lemma run_go s j job :
  heap s !! j = Some job → job_status job = pending →
  run j s =
  {| heap := <[j := with_status active job]> (heap s);
     syncJobs := syncJobs s; statusUpdate := statusUpdate s;
     syncInProgress := syncInProgress s; promises := promises s;
     tasks := tasks s ++ [TGetForm j];
     calls := calls s ++ [CGetForm (job_tableName job) (job_ref job)] |}.
Proof.
  intros Hj Hp. unfold run, set_status. rewrite Hj.
  rewrite bool_decide_eq_false_2 by (intros H; by apply H). done.
Qed.

Lemma filter_ext_in {A} (P Q : A → Prop)
    `{∀ x, Decision (P x)} `{∀ x, Decision (Q x)} (l : list A) :
  (∀ x, x ∈ l → P x ↔ Q x) → filter P l = filter Q l.
Proof.
  induction l as [|x l IH]; intros Hext; [done|].
  rewrite !filter_cons. rewrite IH
    by (intros y Hy; apply Hext; by apply elem_of_cons; right).
  assert (P x ↔ Q x) as Hx by (apply Hext, list_elem_of_here).
  destruct (decide (P x)), (decide (Q x)); tauto.
Qed.

Lemma omap_ext_in {A B} (f g : A → option B) (l : list A) :
  (∀ x, x ∈ l → f x = g x) → omap f l = omap g l.
Proof.
  induction l as [|x l IH]; intros Hext; [done|].
  rewrite !omap_step. rewrite IH
    by (intros y Hy; apply Hext; by apply elem_of_cons; right).
  by rewrite (Hext x (list_elem_of_here _ _)).
Qed.

(** The loop of [synchronize] over a queue of distinct jobs: the pending
    ones become active and a request goes out for each, in the order of
    the queue; nothing else changes. *)
Lemma run_queue (q : list nat) : ∀ s,
  NoDup q →
  let s' := foldl (λ s job,
                     if bool_decide (status_at s job = Some pending)
                     then run job s else s) s q in
  syncJobs s' = syncJobs s ∧
  statusUpdate s' = statusUpdate s ∧
  syncInProgress s' = syncInProgress s ∧
  promises s' = promises s ∧
  length (heap s') = length (heap s) ∧
  (∀ j, heap s' !! j =
        if decide (j ∈ q ∧ status_at s j = Some pending)
        then with_status active <$> heap s !! j
        else heap s !! j) ∧
  tasks s' = tasks s ++ map TGetForm (pending_of s q) ∧
  calls s' = calls s ++ omap (job_call s) (pending_of s q).
Proof.
  induction q as [|i q IH]; intros s Hnd.
  - simpl. rewrite !app_nil_r. repeat split; try done.
    all: intros j; rewrite decide_False; [done|]; intros [H _];
      by apply elem_of_nil in H.
  - apply NoDup_cons in Hnd as [Hi Hnd]. simpl foldl.
    unfold pending_of. rewrite filter_cons.
    destruct (decide (status_at s i = Some pending)) as [Hp|Hp].
    + rewrite bool_decide_eq_true_2 by done.
      unfold status_at in Hp. destruct (heap s !! i) as [job|] eqn:Hjob;
        [|done]. simpl in Hp. injection Hp as Hp.
      rewrite (run_go s i job Hjob Hp).
      set (s1 := {| heap := <[i := with_status active job]> (heap s) |}).
      assert (Hother : ∀ j, j ≠ i → heap s1 !! j = heap s !! j).
      { intros j Hne. simpl. by apply list_lookup_insert_ne. }
      assert (Hpend : pending_of s1 q = filter
                (λ j, status_at s j = Some pending) q).
      { apply filter_ext_in. intros j Hj. unfold status_at.
        rewrite Hother; [done|]. intros ->. done. }
      assert (Hcalls : omap (job_call s1) (pending_of s1 q) =
                       omap (job_call s) (pending_of s1 q)).
      { apply omap_ext_in. intros j Hj. unfold job_call.
        rewrite Hother; [done|]. intros ->.
        apply list_elem_of_filter in Hj as [_ Hj]. done. }
      destruct (IH s1 Hnd) as (H1 & H2 & H3 & H4 & H5 & H6 & H7 & H8).
      repeat split; try done.
      * rewrite H5. simpl. apply length_insert.
      * intros j. rewrite H6. destruct (decide (j = i)) as [->|Hne].
        -- rewrite decide_False by (intros [? _]; done).
           rewrite decide_True
             by (split; [apply list_elem_of_here | unfold status_at;
                         by rewrite Hjob; simpl; rewrite Hp]).
           simpl. rewrite list_lookup_insert_eq by (by eapply lookup_lt_Some).
           by rewrite Hjob.
        -- unfold status_at. rewrite Hother by done.
           destruct (decide (j ∈ q ∧ job_status <$> heap s !! j = Some pending))
             as [[Ha Hb]|Hn].
           ++ rewrite decide_True; [done|].
              split; [by apply elem_of_cons; right | done].
           ++ rewrite decide_False; [done|]. intros [Ha Hb]. apply Hn.
              apply elem_of_cons in Ha as [->|Ha]; done.
      * rewrite H7, Hpend. simpl. by rewrite <- app_assoc.
      * rewrite H8, Hcalls, Hpend. rewrite omap_step.
        unfold job_call at 2. rewrite Hjob. simpl. by rewrite <- app_assoc.
    + rewrite bool_decide_eq_false_2 by done.
      destruct (IH s Hnd) as (H1 & H2 & H3 & H4 & H5 & H6 & H7 & H8).
      repeat split; try done.
      intros j. rewrite H6.
      destruct (decide (j ∈ q ∧ status_at s j = Some pending)) as [[Ha Hb]|Hn].
      * rewrite decide_True; [done|].
        split; [by apply elem_of_cons; right | done].
      * rewrite decide_False; [done|]. intros [Ha Hb]. apply Hn.
        apply elem_of_cons in Ha as [->|Ha]; done.
Qed.

(** ** Outstanding tasks *)

Lemma take_task_split k ts ts' :
  take_task k ts = Some ts' →
  ∃ l1 l2, ts = l1 ++ k :: l2 ∧ ts' = l1 ++ l2.
Proof.
  revert ts'. induction ts as [|k' ts IH]; intros ts' H; [done|].
  simpl in H. destruct (decide (k' = k)) as [->|Hne].
  - injection H as <-. by exists [], ts.
  - destruct (take_task k ts) as [ts1|]; [|done]. simpl in H.
    injection H as <-. destruct (IH ts1 eq_refl) as (l1 & l2 & -> & ->).
    by exists (k' :: l1), l2.
Qed.

Lemma take_task_new k ts ts2 :
  k ∉ ts → take_task k (ts ++ k :: ts2) = Some (ts ++ ts2).
Proof.
  induction ts as [|k' ts IH]; intros Hn; simpl.
  - by rewrite decide_True.
  - apply not_elem_of_cons in Hn as [Hne Hn].
    rewrite decide_False by done. by rewrite IH.
Qed.

Lemma take_tables_split d ts data ts' :
  take_tables d ts = Some (data, ts') →
  ∃ l1 l2, ts = l1 ++ TTables d data :: l2 ∧ ts' = l1 ++ l2.
Proof.
  revert ts'. induction ts as [|k ts IH]; intros ts' H; [done|].
  assert (Hrec : ∀ k', prod_map id (cons k') <$> take_tables d ts
                       = Some (data, ts') →
                 ∃ l1 l2, k' :: ts = l1 ++ TTables d data :: l2
                          ∧ ts' = l1 ++ l2).
  { intros k' Hk. destruct (take_tables d ts) as [[data1 ts1]|]; [|done].
    simpl in Hk. injection Hk as <- <-.
    destruct (IH ts1 eq_refl) as (l1 & l2 & -> & ->).
    by exists (k' :: l1), l2. }
  destruct k; simpl in H; try by apply Hrec.
  destruct (decide (deferred = d)) as [->|Hne]; [|by apply Hrec].
  injection H as <- <-. by exists [], ts.
Qed.

Lemma take_tables_new d data ts ts2 :
  d ∉ fetch_deferreds ts →
  take_tables d (ts ++ TTables d data :: ts2) = Some (data, ts ++ ts2).
Proof.
  induction ts as [|k ts IH]; intros Hn.
  - simpl. by rewrite decide_True.
  - unfold fetch_deferreds in Hn. rewrite omap_step in Hn.
    destruct k; simpl in *;
      try (apply not_elem_of_cons in Hn as [Hne Hn]);
      try (rewrite decide_False by done);
      by rewrite IH.
Qed.

Lemma getform_jobs_app l1 l2 :
  getform_jobs (l1 ++ l2) = getform_jobs l1 ++ getform_jobs l2.
Proof. apply omap_app. Qed.

Lemma fetch_deferreds_app l1 l2 :
  fetch_deferreds (l1 ++ l2) = fetch_deferreds l1 ++ fetch_deferreds l2.
Proof. apply omap_app. Qed.

Lemma then_promises_app l1 l2 :
  then_promises (l1 ++ l2) = then_promises l1 ++ then_promises l2.
Proof. apply omap_app. Qed.

Lemma getform_jobs_map q : getform_jobs (map TGetForm q) = q.
Proof. induction q as [|j q IH]; [done|]. simpl. by f_equal. Qed.

Lemma fetch_deferreds_map q : fetch_deferreds (map TGetForm q) = [].
Proof. by induction q. Qed.

Lemma then_promises_map q : then_promises (map TGetForm q) = [].
Proof. by induction q. Qed.

Lemma elem_of_getform_jobs j ts : j ∈ getform_jobs ts ↔ TGetForm j ∈ ts.
Proof.
  unfold getform_jobs. rewrite list_elem_of_omap. split.
  - intros (k & Hk & E). destruct k; try done. by injection E as ->.
  - intros H. by exists (TGetForm j).
Qed.

Lemma elem_of_then_promises p ts : p ∈ then_promises ts ↔ TThen p ∈ ts.
Proof.
  unfold then_promises. rewrite list_elem_of_omap. split.
  - intros (k & Hk & E). destruct k; try done. by injection E as ->.
  - intros H. by exists (TThen p).
Qed.

Lemma elem_of_fetch_deferreds d ts :
  d ∈ fetch_deferreds ts ↔ TFormList d ∈ ts ∨ ∃ data, TTables d data ∈ ts.
Proof.
  unfold fetch_deferreds. rewrite list_elem_of_omap. split.
  - intros (k & Hk & E). destruct k; try done; injection E as ->;
      [by left | right; by eexists].
  - intros [H|[data H]]; [by exists (TFormList d) | by exists (TTables d data)].
Qed.

(** ** The invariant *)

Lemma NoDup_middle {A} (l1 l2 : list A) (x : A) :
  NoDup (l1 ++ x :: l2) → NoDup (l1 ++ l2) ∧ x ∉ l1 ++ l2.
Proof.
  rewrite !NoDup_app, NoDup_cons, elem_of_app.
  intros (H1 & H12 & Hx & H2). repeat split; try done.
  - intros y Hy Hy2. apply (H12 y Hy). by apply elem_of_cons; right.
  - intros [Hin|Hin]; [|done]. apply (H12 x Hin). apply list_elem_of_here.
Qed.

Lemma elem_of_middle {A} (l1 l2 : list A) (x y : A) :
  y ∈ l1 ++ x :: l2 ↔ y = x ∨ y ∈ l1 ++ l2.
Proof. rewrite !elem_of_app, elem_of_cons. tauto. Qed.

Lemma status_at_set_status self st s j :
  status_at (set_status self st s) j =
  if decide (j = self) then (λ _, st) <$> status_at s j else status_at s j.
Proof.
  unfold status_at. rewrite set_status_lookup.
  destruct (decide (j = self)); [|done]. by destruct (heap s !! j).
Qed.

(** The invariant looks at the jobs, the queue, the busy flag, the
    promises and the tasks only. *)
Lemma Inv_same s s' :
  Inv s → heap s' = heap s → syncJobs s' = syncJobs s →
  statusUpdate s' = statusUpdate s → promises s' = promises s →
  tasks s' = tasks s → Inv s'.
Proof.
  intros [] Hh Hq Hu Hp Ht.
  constructor; unfold status_at in *; rewrite ?Hh, ?Hq, ?Hu, ?Hp, ?Ht; done.
Qed.

Lemma Inv_init : Inv init.
Proof.
  constructor; simpl; try done; try apply NoDup_nil_2;
    first [apply not_elem_of_nil | intros ? H; by apply elem_of_nil in H].
Qed.

Lemma filter_open_queue s :
  (∀ j, j ∈ syncJobs s → status_at s j = Some active) →
  filter (λ j, job_open (heap s) j = true) (syncJobs s) = syncJobs s.
Proof.
  intros Hact. induction (syncJobs s) as [|j q IH]; [done|].
  rewrite filter_cons. rewrite IH
    by (intros i Hi; apply Hact; by apply elem_of_cons; right).
  rewrite decide_True; [done|].
  specialize (Hact j (list_elem_of_here _ _)). unfold status_at, job_open in *.
  destruct (heap s !! j) as [job|]; [|done]. simpl in Hact.
  injection Hact as ->. done.
Qed.

(** Between two events a status-aggregation pass leaves the queue as it
    is and sets the flag to whether the queue has a job. *)
Lemma updateSyncStatus_Inv s :
  Inv s →
  updateSyncStatus s =
  set_syncInProgress (bool_decide (0 < length (syncJobs s))) s.
Proof.
  intros HI. rewrite updateSyncStatus_idle by apply (inv_idle s HI).
  rewrite filter_open_queue by apply (inv_queue_active s HI).
  unfold set_syncInProgress. f_equal. symmetry. apply (inv_idle s HI).
Qed.

Lemma Inv_settle p v s :
  Inv s → p ∉ fetch_deferreds (tasks s) → Inv (settle p v s).
Proof.
  intros HI Hp. unfold settle.
  destruct (promises s !! p) as [[]|] eqn:E; try done.
  destruct HI. constructor; simpl; try done.
  - intros p' Hp'. rewrite list_lookup_insert_ne by (intros ->; done).
    by apply inv_fetch_pending0.
  - intros p' Hp'. rewrite length_insert. by apply inv_then_bound0.
Qed.

(** The answer to the request of a job. *)
Lemma Inv_getform_done s j st l1 l2 :
  Inv s → tasks s = l1 ++ TGetForm j :: l2 → is_open st = false →
  Inv (updateSyncStatus (set_status j st (set_tasks (l1 ++ l2) s))).
Proof.
  intros HI Ht Hst.
  pose proof (set_status_fields j st (set_tasks (l1 ++ l2) s))
    as (Hq & Hu & _ & Hp & Htk & _ & _).
  simpl in Hq, Hu, Hp, Htk.
  rewrite updateSyncStatus_idle by (rewrite Hu; apply (inv_idle s HI)).
  rewrite Hq, Hp, Htk.
  set (s2 := set_status j st (set_tasks (l1 ++ l2) s)).
  assert (Hstat : ∀ i, i ≠ j → status_at s2 i = status_at s i).
  { intros i Hne. unfold s2. rewrite status_at_set_status.
    by rewrite decide_False. }
  assert (Hj : status_at s2 j = Some st).
  { unfold s2. rewrite status_at_set_status, decide_True by done.
    change (status_at (set_tasks (l1 ++ l2) s) j) with (status_at s j).
    rewrite (inv_getform_active s HI j); [done|].
    rewrite Ht. apply elem_of_getform_jobs, elem_of_middle. by left. }
  assert (Hgf : getform_jobs (tasks s) =
                getform_jobs l1 ++ j :: getform_jobs l2).
  { rewrite Ht. by rewrite getform_jobs_app. }
  pose proof (inv_getform_nodup s HI) as Hnd. rewrite Hgf in Hnd.
  apply NoDup_middle in Hnd as [Hnd Hjn].
  assert (Hopen : ∀ i, job_open (heap s2) i = true → i ≠ j).
  { intros i Ho ->. unfold status_at in Hj. unfold job_open in Ho.
    destruct (heap s2 !! j) as [job|]; [|done]. simpl in Hj.
    injection Hj as Hj. rewrite Hj, Hst in Ho. done. }
  constructor; simpl.
  - done.
  - intros i Hi. apply list_elem_of_filter in Hi as [Ho Hi].
    change (status_at s2 i = Some active). rewrite Hstat by by apply Hopen.
    by apply (inv_queue_active s HI).
  - apply NoDup_filter, (inv_queue_nodup s HI).
  - intros i Hi. rewrite getform_jobs_app in Hi.
    change (status_at s2 i = Some active).
    rewrite Hstat by (intros ->; done).
    apply (inv_getform_active s HI). rewrite Hgf.
    apply elem_of_middle. by right.
  - by rewrite getform_jobs_app.
  - intros i Hi. apply list_elem_of_filter in Hi as [Ho Hi].
    apply (inv_queue_getform s HI) in Hi. rewrite Hgf in Hi.
    apply elem_of_middle in Hi as [->|Hi]; [by apply Hopen in Ho|].
    by rewrite getform_jobs_app.
  - intros p Hpin. apply (inv_fetch_pending s HI). rewrite Ht.
    rewrite fetch_deferreds_app in *. done.
  - pose proof (inv_fetch_nodup s HI) as H. rewrite Ht in H.
    rewrite fetch_deferreds_app in *. done.
  - intros p Hpin. apply (inv_then_bound s HI). rewrite Ht.
    rewrite then_promises_app in *. done.
  - pose proof (inv_no_timeout s HI) as H. rewrite Ht in H.
    intros Hin. apply H. apply elem_of_middle. by right.
Qed.

Lemma Inv_tasks s ts :
  Inv s →
  getform_jobs ts = getform_jobs (tasks s) →
  (∀ p, p ∈ fetch_deferreds ts → p ∈ fetch_deferreds (tasks s)) →
  NoDup (fetch_deferreds ts) →
  (∀ p, p ∈ then_promises ts → p ∈ then_promises (tasks s)) →
  TTimeout ∉ ts →
  Inv (set_tasks ts s).
Proof.
  intros HI Hg Hf Hfn Ht Hto. destruct HI.
  constructor; simpl; rewrite ?Hg; auto.
Qed.

Lemma not_elem_of_middle {A} (l1 l2 : list A) (x y : A) :
  y ∉ l1 ++ x :: l2 → y ∉ l1 ++ l2.
Proof. rewrite elem_of_middle. tauto. Qed.

Lemma Inv_take s k l1 l2 :
  Inv s → tasks s = l1 ++ k :: l2 → (∀ j, k ≠ TGetForm j) →
  Inv (set_tasks (l1 ++ l2) s).
Proof.
  intros HI Ht Hk.
  pose proof (inv_fetch_nodup s HI) as Hnd.
  pose proof (inv_no_timeout s HI) as Hto.
  rewrite Ht in Hnd, Hto.
  apply Inv_tasks; try done.
  - rewrite Ht, !getform_jobs_app. f_equal.
    unfold getform_jobs at 2. rewrite omap_step.
    destruct k; try done. by destruct (Hk job).
  - intros p. rewrite Ht, !fetch_deferreds_app.
    unfold fetch_deferreds at 4. rewrite omap_step.
    destruct k; try done; rewrite elem_of_middle; tauto.
  - rewrite fetch_deferreds_app in *.
    unfold fetch_deferreds in Hnd at 2. rewrite omap_step in Hnd.
    destruct k; try done; by apply NoDup_middle in Hnd as [? _].
  - intros p. rewrite Ht, !then_promises_app.
    unfold then_promises at 4. rewrite omap_step.
    destruct k; try done; rewrite elem_of_middle; tauto.
  - by apply not_elem_of_middle in Hto.
Qed.

(** A deferred has one request or query outstanding, and is pending as
    long as it has. *)
Lemma fetch_taken s k p l1 l2 :
  Inv s → tasks s = l1 ++ k :: l2 →
  (k = TFormList p ∨ ∃ data, k = TTables p data) →
  (p ∉ fetch_deferreds (l1 ++ l2)) ∧ promises s !! p = Some PPending.
Proof.
  intros HI Ht Hk.
  pose proof (inv_fetch_nodup s HI) as Hnd.
  pose proof (inv_fetch_pending s HI p) as Hp.
  rewrite Ht in Hnd, Hp. rewrite fetch_deferreds_app in *.
  unfold fetch_deferreds in Hnd at 2, Hp at 2. rewrite omap_step in Hnd, Hp.
  destruct Hk as [->|[data ->]]; simpl in Hnd, Hp;
    apply NoDup_middle in Hnd as [_ Hn];
    (split; [done | apply Hp, elem_of_middle; by left]).
Qed.

Lemma Inv_later_fetch s k p :
  Inv s → (k = TFormList p ∨ ∃ data, k = TTables p data) →
  p ∉ fetch_deferreds (tasks s) → promises s !! p = Some PPending →
  Inv (later k s).
Proof.
  intros HI Hk Hn Hp. unfold later. destruct HI.
  assert (Hf : fetch_deferreds (tasks s ++ [k]) =
               fetch_deferreds (tasks s) ++ [p]).
  { rewrite fetch_deferreds_app. by destruct Hk as [->|[data ->]]. }
  assert (Hg : getform_jobs (tasks s ++ [k]) = getform_jobs (tasks s)).
  { rewrite getform_jobs_app.
    destruct Hk as [->|[data ->]]; simpl; by rewrite app_nil_r. }
  assert (Ht : then_promises (tasks s ++ [k]) = then_promises (tasks s)).
  { rewrite then_promises_app.
    destruct Hk as [->|[data ->]]; simpl; by rewrite app_nil_r. }
  constructor; simpl; rewrite ?Hf, ?Hg, ?Ht; try done.
  - intros d Hd. apply elem_of_app in Hd as [Hd|Hd]; [by auto|].
    by apply list_elem_of_singleton in Hd as ->.
  - apply NoDup_app. split; [done|]. split; [|apply NoDup_singleton].
    intros d Hd Hd'. by apply list_elem_of_singleton in Hd' as ->.
  - rewrite elem_of_app, list_elem_of_singleton.
    intros [H|H]; [done|]. by destruct Hk as [->|[data ->]].
Qed.

Lemma Inv_later_then s p :
  Inv s → p < length (promises s) → Inv (later (TThen p) s).
Proof.
  intros HI Hp. unfold later. destruct HI.
  assert (Hf : fetch_deferreds (tasks s ++ [TThen p]) =
               fetch_deferreds (tasks s)).
  { rewrite fetch_deferreds_app. simpl. by rewrite app_nil_r. }
  assert (Hg : getform_jobs (tasks s ++ [TThen p]) = getform_jobs (tasks s)).
  { rewrite getform_jobs_app. simpl. by rewrite app_nil_r. }
  constructor; simpl; rewrite ?Hf, ?Hg; try done.
  - intros d. rewrite then_promises_app, elem_of_app. simpl.
    rewrite list_elem_of_singleton. intros [Hd| ->]; [by auto | done].
  - rewrite elem_of_app, list_elem_of_singleton. intros [H|H]; done.
Qed.

(** The catalog arrives. *)
Lemma Inv_formList_success s p data l1 l2 :
  Inv s → tasks s = l1 ++ TFormList p :: l2 →
  Inv (formList_success p data (set_tasks (l1 ++ l2) s)).
Proof.
  intros HI Ht.
  destruct (fetch_taken s _ p l1 l2 HI Ht) as [Hn Hp]; [by left|].
  unfold formList_success.
  apply (Inv_later_fetch _ _ p); [|right; by eexists|done|done].
  apply (Inv_same (set_tasks (l1 ++ l2) s)); try done.
  by apply (Inv_take s (TFormList p)).
Qed.

(** The catalog request fails. *)
Lemma Inv_formList_error s p response l1 l2 :
  Inv s → tasks s = l1 ++ TFormList p :: l2 →
  Inv (formList_error p response (set_tasks (l1 ++ l2) s)).
Proof.
  intros HI Ht.
  destruct (fetch_taken s _ p l1 l2 HI Ht) as [Hn Hp]; [by left|].
  assert (HI1 : Inv (set_tasks (l1 ++ l2) s))
    by by apply (Inv_take s (TFormList p)).
  unfold formList_error. rewrite (updateSyncStatus_Inv _ HI1).
  apply Inv_settle; [|done].
  by apply (Inv_same (set_tasks (l1 ++ l2) s)).
Qed.

(** The table names arrive. *)
Lemma Inv_tables_then s p data tableNames l1 l2 :
  Inv s → tasks s = l1 ++ TTables p data :: l2 →
  Inv (tables_then p data tableNames (set_tasks (l1 ++ l2) s)).
Proof.
  intros HI Ht.
  destruct (fetch_taken s _ p l1 l2 HI Ht) as [Hn Hp]; [right; by eexists|].
  unfold tables_then. apply Inv_settle; [|done].
  by apply (Inv_take s (TTables p data)).
Qed.

(** ** The driver between two events *)

Lemma run_none (q : list nat) : ∀ s,
  (∀ j, j ∈ q → status_at s j ≠ Some pending) →
  foldl (λ s job,
           if bool_decide (status_at s job = Some pending)
           then run job s else s) s q = s.
Proof.
  induction q as [|j q IH]; intros s Hq; [done|]. simpl.
  rewrite bool_decide_eq_false_2 by apply Hq, list_elem_of_here.
  apply IH. intros i Hi. apply Hq. by apply elem_of_cons; right.
Qed.

(** With jobs in the queue, all of them active, [synchronize] only sets
    the flag. *)
Lemma synchronize_busy forms s :
  Inv s → syncJobs s ≠ [] → synchronize forms s = set_syncInProgress true s.
Proof.
  intros HI Hq. unfold synchronize. simpl.
  rewrite bool_decide_eq_true_2 by (destruct (syncJobs s); simpl; [done|lia]).
  apply run_none. intros j Hj.
  change (status_at s j ≠ Some pending).
  by rewrite (inv_queue_active s HI j Hj).
Qed.

(** With an empty queue, [synchronize] sets the flag, asks for the form
    list and leaves its callback on the promise. *)
Lemma synchronize_idle forms s :
  syncJobs s = [] →
  synchronize forms s =
  later (TThen (length (promises s)))
        (getFormList forms (set_syncInProgress true s)).2.
Proof.
  intros Hq. unfold synchronize. simpl. rewrite Hq. simpl.
  unfold getFormList. by destruct forms as [[|form l]|].
Qed.

Lemma getFormList_cases forms s :
  (∃ form l, forms = Some (form :: l) ∧
     getFormList forms s =
     (length (promises s),
      set_promises (promises s ++ [PResolved (form :: l)]) s)) ∨
  ((forms = None ∨ forms = Some []) ∧
     getFormList forms s =
     (length (promises s),
      later (TFormList (length (promises s)))
            (call CFormList (set_promises (promises s ++ [PPending]) s)))).
Proof.
  unfold getFormList. destruct forms as [[|form l]|].
  - right. split; [by right | done].
  - left. exists form, l. split; [done|].
    by rewrite (settle_fresh (promises s)).
  - right. split; [by left | done].
Qed.

Lemma Inv_promises_app s v :
  Inv s → Inv (set_promises (promises s ++ [v]) s).
Proof.
  intros []. constructor; simpl; try done.
  - intros p Hp. rewrite lookup_app_l; [by auto|].
    eapply lookup_lt_Some; by eauto.
  - intros p Hp. rewrite length_app. simpl.
    specialize (inv_then_bound0 p Hp). lia.
Qed.

Lemma Inv_synchronize forms s : Inv s → Inv (synchronize forms s).
Proof.
  intros HI. destruct (decide (syncJobs s = [])) as [Hq|Hq].
  - rewrite synchronize_idle by done.
    assert (Hfresh : length (promises s) ∉ fetch_deferreds (tasks s)).
    { intros Hin. apply (inv_fetch_pending s HI) in Hin.
      apply lookup_lt_Some in Hin. lia. }
    destruct (getFormList_cases forms (set_syncInProgress true s))
      as [(form & l & _ & ->)|[_ ->]]; simpl.
    + apply Inv_later_then; [|simpl; rewrite length_app; simpl; lia].
      apply (Inv_same (set_promises (promises s ++ [PResolved (form :: l)]) s));
        try done.
      by apply Inv_promises_app.
    + apply Inv_later_then;
        [|simpl; rewrite length_app; simpl; lia].
      apply (Inv_later_fetch _ _ (length (promises s))); [|by left|done|].
      * apply (Inv_same (set_promises (promises s ++ [PPending]) s)); try done.
        by apply Inv_promises_app.
      * simpl. rewrite lookup_app_r by lia. by rewrite Nat.sub_diag.
  - rewrite synchronize_busy by done. by apply (Inv_same s).
Qed.

Lemma filter_all {A} (P : A → Prop) `{∀ x, Decision (P x)} (l : list A) :
  (∀ x, x ∈ l → P x) → filter P l = l.
Proof.
  induction l as [|x l IH]; intros Hall; [done|].
  rewrite filter_cons, decide_True by apply Hall, list_elem_of_here.
  rewrite IH; [done|]. intros y Hy. apply Hall. by apply elem_of_cons; right.
Qed.

Lemma filter_none {A} (P : A → Prop) `{∀ x, Decision (P x)} (l : list A) :
  (∀ x, x ∈ l → ¬ P x) → filter P l = [].
Proof.
  induction l as [|x l IH]; intros Hall; [done|].
  rewrite filter_cons, decide_False by apply Hall, list_elem_of_here.
  apply IH. intros y Hy. apply Hall. by apply elem_of_cons; right.
Qed.

Lemma omap_lookup_seq {A B} (g : A → B) (l : list A) : ∀ h : list A,
  omap (λ j, g <$> (h ++ l) !! j) (seq (length h) (length l)) = map g l.
Proof.
  induction l as [|x l IH]; intros h; [done|].
  simpl length. simpl seq. rewrite omap_step.
  rewrite list_lookup_middle by done. simpl. f_equal.
  specialize (IH (h ++ [x])). rewrite <- app_assoc in IH. simpl in IH.
  rewrite length_app in IH. simpl in IH.
  by replace (length h + 1) with (S (length h)) in IH by lia.
Qed.

Lemma generateSyncJobs_none formList s :
  selected formList = [] → generateSyncJobs formList s = (0, s).
Proof.
  intros E. rewrite generateSyncJobs_eq, E. simpl.
  rewrite !app_nil_r. by destruct s.
Qed.

(** With nothing to download the callback of [synchronize] runs a
    status-aggregation pass only. *)
Lemma synchronize_then_none formList s :
  Inv s → selected formList = [] →
  synchronize_then formList s =
  set_syncInProgress (bool_decide (0 < length (syncJobs s))) s.
Proof.
  intros HI E. unfold synchronize_then.
  rewrite generateSyncJobs_none by done.
  rewrite bool_decide_eq_false_2 by lia. by apply updateSyncStatus_Inv.
Qed.

(** With entries to download it schedules a job for each and calls
    [synchronize] again, which starts them all. *)
Lemma synchronize_then_some formList s :
  Inv s → selected formList ≠ [] →
  synchronize_then formList s = started (selected formList) s.
Proof.
  intros HI Hsel. unfold synchronize_then. rewrite generateSyncJobs_eq.
  set (sel := selected formList) in *.
  assert (0 < length sel) as Hn by (destruct sel; simpl; [done|lia]).
  rewrite bool_decide_eq_true_2 by done.
  unfold synchronize.
  set (s1 := {| heap := heap s ++ map form_job sel |}).
  set (s2 := set_syncInProgress true s1).
  change (syncJobs s2)
    with (syncJobs s ++ seq (length (heap s)) (length sel)).
  rewrite bool_decide_eq_true_2 by (rewrite length_app, length_seq; lia).
  assert (Hvalid : ∀ j, j ∈ syncJobs s → j < length (heap s)).
  { intros j Hj. apply (inv_queue_active s HI) in Hj. unfold status_at in Hj.
    destruct (heap s !! j) eqn:E; [|done]. by eapply lookup_lt_Some. }
  assert (Hold : ∀ j, j < length (heap s) → heap s2 !! j = heap s !! j).
  { intros j Hj. simpl. by apply lookup_app_l. }
  assert (Hnew : ∀ i, heap s2 !! (length (heap s) + i) =
                      form_job <$> sel !! i).
  { intros i. simpl. rewrite lookup_app_r by lia.
    replace (length (heap s) + i - length (heap s)) with i by lia.
    apply list_lookup_fmap. }
  assert (Hnd : NoDup (syncJobs s ++ seq (length (heap s)) (length sel))).
  { apply NoDup_app. split; [apply (inv_queue_nodup s HI)|].
    split; [|apply NoDup_seq].
    intros j Hj Hj'. apply Hvalid in Hj. apply elem_of_seq in Hj'. lia. }
  assert (Hpend : pending_of s2 (syncJobs s ++ seq (length (heap s)) (length sel))
                  = seq (length (heap s)) (length sel)).
  { unfold pending_of. rewrite filter_app.
    rewrite filter_none, filter_all; [done| |].
    - intros j Hj. apply elem_of_seq in Hj.
      unfold status_at.
      replace j with (length (heap s) + (j - length (heap s))) by lia.
      rewrite Hnew.
      destruct (lookup_lt_is_Some_2 sel (j - length (heap s))) as [form E];
        [lia|]. by rewrite E.
    - intros j Hj. unfold status_at. rewrite Hold by by apply Hvalid.
      change (status_at s j ≠ Some pending).
      by rewrite (inv_queue_active s HI j Hj). }
  pose proof (run_queue _ s2 Hnd) as Hrun. cbv zeta in Hrun.
  set (s' := foldl _ s2 _) in *. clearbody s'.
  change (heap s2) with (heap s ++ map form_job sel) in *.
  destruct Hrun as (H1 & H2 & H3 & H4 & H5 & H6 & H7 & H8).
  rewrite Hpend in H7, H8.
  destruct s' as [h q u f ps ts cs].
  simpl in *. subst q u f ps ts. unfold started. f_equal.
  - apply list_eq. intros j. rewrite H6.
    destruct (decide (j < length (heap s))) as [Hlt|Hge].
    + rewrite lookup_app_l, lookup_app_l by done.
      rewrite decide_False; [done|]. intros [Hj Hp].
      apply elem_of_app in Hj as [Hj|Hj].
      * unfold status_at in Hp. simpl in Hp.
        rewrite lookup_app_l in Hp by done.
        change (status_at s j = Some pending) in Hp.
        by rewrite (inv_queue_active s HI j Hj) in Hp.
      * apply elem_of_seq in Hj. lia.
    + rewrite !lookup_app_r by lia. rewrite !list_lookup_fmap.
      destruct (sel !! (j - length (heap s))) as [form|] eqn:E; simpl.
      * rewrite decide_True; [done|]. split.
        -- apply elem_of_app. right. apply elem_of_seq.
           apply lookup_lt_Some in E. lia.
        -- unfold status_at. simpl. rewrite lookup_app_r by lia.
           by rewrite list_lookup_fmap, E.
      * by destruct (decide _).
  - rewrite H8. f_equal. unfold job_call. simpl.
    rewrite <- (length_map form_job sel).
    rewrite omap_lookup_seq. by rewrite map_map.
Qed.

Lemma status_at_valid s j st : status_at s j = Some st → j < length (heap s).
Proof.
  unfold status_at. destruct (heap s !! j) eqn:E; [|done].
  intros _. by eapply lookup_lt_Some.
Qed.

Lemma started_status sel s j :
  status_at (started sel s) j =
  if decide (j < length (heap s)) then status_at s j
  else if decide (j < length (heap s) + length sel) then Some active
  else None.
Proof.
  unfold status_at, started. simpl.
  destruct (decide (j < length (heap s))) as [Hlt|Hge].
  - by rewrite lookup_app_l.
  - rewrite lookup_app_r by lia. rewrite list_lookup_fmap.
    destruct (decide (j < length (heap s) + length sel)) as [Hlt|Hge'].
    + destruct (lookup_lt_is_Some_2 sel (j - length (heap s))) as [form E];
        [lia|]. by rewrite E.
    + rewrite lookup_ge_None_2; [done|lia].
Qed.

Lemma Inv_started sel s : Inv s → Inv (started sel s).
Proof.
  intros HI.
  assert (Hq : ∀ j, j ∈ syncJobs s → j < length (heap s)).
  { intros j Hj. eapply status_at_valid. by apply (inv_queue_active s HI). }
  assert (Hg : ∀ j, j ∈ getform_jobs (tasks s) → j < length (heap s)).
  { intros j Hj. eapply status_at_valid. by apply (inv_getform_active s HI). }
  assert (Hactive : ∀ j, j ∈ seq (length (heap s)) (length sel) →
                         status_at (started sel s) j = Some active).
  { intros j Hj. apply elem_of_seq in Hj. rewrite started_status.
    rewrite decide_False, decide_True by lia. done. }
  assert (Hkeep : ∀ j, j < length (heap s) →
                       status_at (started sel s) j = status_at s j).
  { intros j Hj. rewrite started_status. by rewrite decide_True. }
  constructor; simpl;
    rewrite ?getform_jobs_app, ?fetch_deferreds_app, ?then_promises_app,
            ?getform_jobs_map, ?fetch_deferreds_map, ?then_promises_map,
            ?app_nil_r.
  - apply (inv_idle s HI).
  - intros j Hj. apply elem_of_app in Hj as [Hj|Hj]; [|by apply Hactive].
    change (status_at (started sel s) j = Some active).
    rewrite Hkeep by by apply Hq. by apply (inv_queue_active s HI).
  - apply NoDup_app. split; [apply (inv_queue_nodup s HI)|].
    split; [|apply NoDup_seq].
    intros j Hj Hj'. apply Hq in Hj. apply elem_of_seq in Hj'. lia.
  - intros j Hj. apply elem_of_app in Hj as [Hj|Hj]; [|by apply Hactive].
    change (status_at (started sel s) j = Some active).
    rewrite Hkeep by by apply Hg. by apply (inv_getform_active s HI).
  - apply NoDup_app. split; [apply (inv_getform_nodup s HI)|].
    split; [|apply NoDup_seq].
    intros j Hj Hj'. apply Hg in Hj. apply elem_of_seq in Hj'. lia.
  - intros j Hj. apply elem_of_app. apply elem_of_app in Hj as [Hj|Hj].
    + left. by apply (inv_queue_getform s HI).
    + by right.
  - apply (inv_fetch_pending s HI).
  - apply (inv_fetch_nodup s HI).
  - apply (inv_then_bound s HI).
  - rewrite elem_of_app. intros [H|H].
    + by apply (inv_no_timeout s HI).
    + apply list_elem_of_fmap in H as (j & E & _). discriminate.
Qed.

Lemma Inv_synchronize_then formList s :
  Inv s → Inv (synchronize_then formList s).
Proof.
  intros HI. destruct (decide (selected formList = [])) as [E|E].
  - rewrite synchronize_then_none by done. by apply (Inv_same s).
  - rewrite synchronize_then_some by done. by apply Inv_started.
Qed.

(** Every event keeps the invariant. *)
Lemma Inv_step ev s s' : Inv s → step ev s = Some s' → Inv s'.
Proof.
  intros HI Hstep. destruct ev; simpl in Hstep.
  - injection Hstep as <-. by apply Inv_synchronize.
  - destruct (take_task _ _) as [ts|] eqn:Et; [|done]. simpl in Hstep.
    injection Hstep as <-.
    apply take_task_split in Et as (l1 & l2 & Ht & ->).
    by apply Inv_getform_done.
  - destruct (take_task _ _) as [ts|] eqn:Et; [|done]. simpl in Hstep.
    injection Hstep as <-.
    apply take_task_split in Et as (l1 & l2 & Ht & ->).
    by apply Inv_getform_done.
  - destruct (take_task _ _) as [ts|] eqn:Et; [|done]. simpl in Hstep.
    injection Hstep as <-.
    apply take_task_split in Et as (l1 & l2 & Ht & ->).
    by apply Inv_formList_success.
  - destruct (take_task _ _) as [ts|] eqn:Et; [|done]. simpl in Hstep.
    injection Hstep as <-.
    apply take_task_split in Et as (l1 & l2 & Ht & ->).
    by apply Inv_formList_error.
  - destruct (take_tables _ _) as [[data ts]|] eqn:Et; [|done].
    simpl in Hstep. injection Hstep as <-.
    apply take_tables_split in Et as (l1 & l2 & Ht & ->).
    by apply Inv_tables_then.
  - destruct (take_task _ _) as [ts|] eqn:Et; [|done]. simpl in Hstep.
    apply take_task_split in Et as (l1 & l2 & Ht & ->).
    assert (HI1 : Inv (set_tasks (l1 ++ l2) s))
      by by apply (Inv_take s (TThen promise)).
    destruct (promises s !! promise) as [[|formList|response]|]; try done;
      injection Hstep as <-; [by apply Inv_synchronize_then | done].
  - destruct (take_task _ _) as [ts|] eqn:Et; [|done].
    apply take_task_split in Et as (l1 & l2 & Ht & ->).
    destruct (inv_no_timeout s HI). rewrite Ht.
    apply elem_of_middle. by left.
Qed.

Lemma reachable_Inv s : reachable s → Inv s.
Proof.
  induction 1 as [|s ev s' _ IH Hstep]; [apply Inv_init|].
  by apply (Inv_step ev s).
Qed.

Lemma steps_reachable evs : ∀ s s',
  reachable s → steps evs s = Some s' → reachable s'.
Proof.
  induction evs as [|ev evs IH]; intros s s' Hr Hs; simpl in Hs.
  - by injection Hs as <-.
  - destruct (step ev s) as [s1|] eqn:E; [|done]. simpl in Hs.
    apply (IH s1); [|done]. by apply (reachable_step s ev).
Qed.

Lemma after_one_run_reachable : reachable after_one_run.
Proof. by apply (steps_reachable one_run init); [constructor|]. Qed.

(** ** The life of a job *)

Lemma updateSyncStatus_heap s : heap (updateSyncStatus s) = heap s.
Proof.
  unfold updateSyncStatus. destruct (statusUpdate s); [done|].
  simpl. by case_bool_decide.
Qed.

Lemma step_job ev s s' j job :
  Inv s → step ev s = Some s' → heap s !! j = Some job →
  ∃ job', heap s' !! j = Some job' ∧ job_moves job job'.
Proof.
  intros HI Hstep Hj.
  assert (Hsame : heap s' = heap s → ∃ job', heap s' !! j = Some job' ∧
                                             job_moves job job').
  { intros ->. exists job. split; [done | by left]. }
  assert (Hdone : ∀ i st ts, st = success ∨ st = error →
            TGetForm i ∈ tasks s →
            s' = updateSyncStatus (set_status i st (set_tasks ts s)) →
            ∃ job', heap s' !! j = Some job' ∧ job_moves job job').
  { intros i st ts Hst Hi ->. rewrite updateSyncStatus_heap.
    rewrite set_status_lookup. simpl. rewrite Hj.
    destruct (decide (j = i)) as [->|Hne]; simpl.
    - eexists. split; [done|]. right. split; [|done]. simpl.
      apply elem_of_getform_jobs, (inv_getform_active s HI) in Hi.
      unfold status_at in Hi. rewrite Hj in Hi. injection Hi as ->.
      destruct Hst as [-> | ->]; constructor.
    - exists job. split; [done | by left]. }
  destruct ev; simpl in Hstep.
  - injection Hstep as <-. apply Hsame.
    destruct (decide (syncJobs s = [])) as [Hq|Hq].
    + rewrite synchronize_idle by done. simpl.
      by destruct (getFormList_cases forms (set_syncInProgress true s))
        as [(form & l & _ & ->)|[_ ->]].
    + by rewrite synchronize_busy.
  - destruct (take_task _ _) as [ts|] eqn:Et; [|done]. simpl in Hstep.
    injection Hstep as <-.
    apply take_task_split in Et as (l1 & l2 & Ht & ->).
    eapply Hdone; [by left| |done]. rewrite Ht.
    apply elem_of_middle. by left.
  - destruct (take_task _ _) as [ts|] eqn:Et; [|done]. simpl in Hstep.
    injection Hstep as <-.
    apply take_task_split in Et as (l1 & l2 & Ht & ->).
    eapply Hdone; [by right| |done]. rewrite Ht.
    apply elem_of_middle. by left.
  - destruct (take_task _ _) as [ts|]; [|done]. simpl in Hstep.
    injection Hstep as <-. by apply Hsame.
  - destruct (take_task _ _) as [ts|]; [|done]. simpl in Hstep.
    injection Hstep as <-. apply Hsame.
    unfold formList_error, settle. simpl.
    destruct (_ !! deferred) as [[]|]; simpl; by rewrite ?updateSyncStatus_heap.
  - destruct (take_tables _ _) as [[data ts]|]; [|done]. simpl in Hstep.
    injection Hstep as <-. apply Hsame.
    unfold tables_then, settle. simpl.
    by destruct (_ !! deferred) as [[]|].
  - destruct (take_task _ _) as [ts|] eqn:Et; [|done]. simpl in Hstep.
    apply take_task_split in Et as (l1 & l2 & Ht & ->).
    assert (HI1 : Inv (set_tasks (l1 ++ l2) s))
      by by apply (Inv_take s (TThen promise)).
    destruct (promises s !! promise) as [[|formList|response]|]; try done;
      injection Hstep as <-; [|by apply Hsame].
    destruct (decide (selected formList = [])) as [E|E].
    + apply Hsame. by rewrite synchronize_then_none.
    + rewrite synchronize_then_some by done. exists job.
      split; [|by left]. simpl. rewrite lookup_app_l; [done|].
      by eapply lookup_lt_Some.
  - destruct (take_task _ _) as [ts|] eqn:Et; [|done].
    apply take_task_split in Et as (l1 & l2 & Ht & ->).
    destruct (inv_no_timeout s HI). rewrite Ht.
    apply elem_of_middle. by left.
Qed.

Lemma run_heap self s i job :
  heap s !! i = Some job →
  heap (run self s) !! i =
  Some (if bool_decide (i = self ∧ job_status job = pending)
        then with_status active job else job).
Proof.
  intros Hi. unfold run.
  destruct (heap s !! self) as [job'|] eqn:Hself.
  - case_bool_decide as Hst.
    + rewrite bool_decide_eq_false_2; [done|].
      intros [-> Hp]. rewrite Hself in Hi. injection Hi as ->. done.
    + assert (Hp : job_status job' = pending)
        by (destruct (job_status job'); done).
      unfold later, call. simpl. rewrite set_status_lookup, Hi.
      destruct (decide (i = self)) as [->|Hne]; simpl.
      * rewrite Hself in Hi. injection Hi as ->.
        by rewrite bool_decide_eq_true_2.
      * rewrite bool_decide_eq_false_2; [done|]. by intros [? _].
  - rewrite bool_decide_eq_false_2; [done|].
    intros [-> _]. by rewrite Hself in Hi.
Qed.

Lemma step_made ev s s' :
  Inv s → step ev s = Some s' →
  length (heap s') = length (heap s) ∨
  ∃ promise formList ts,
    ev = EvThen promise ∧
    take_task (TThen promise) (tasks s) = Some ts ∧
    promises s !! promise = Some (PResolved formList) ∧
    selected formList ≠ [] ∧
    s' = started (selected formList) (set_tasks ts s).
Proof.
  intros HI Hstep.
  assert (Hdone : ∀ i st ts,
            s' = updateSyncStatus (set_status i st (set_tasks ts s)) →
            length (heap s') = length (heap s)).
  { intros i st ts ->. rewrite updateSyncStatus_heap.
    by destruct (set_status_fields i st (set_tasks ts s))
      as (_ & _ & _ & _ & _ & _ & ->). }
  destruct ev; simpl in Hstep.
  - injection Hstep as <-. left.
    destruct (decide (syncJobs s = [])) as [Hq|Hq].
    + rewrite synchronize_idle by done. simpl.
      by destruct (getFormList_cases forms (set_syncInProgress true s))
        as [(form & l & _ & ->)|[_ ->]].
    + by rewrite synchronize_busy.
  - destruct (take_task _ _) as [ts|]; [|done]. simpl in Hstep.
    injection Hstep as <-. left. by eapply Hdone.
  - destruct (take_task _ _) as [ts|]; [|done]. simpl in Hstep.
    injection Hstep as <-. left. by eapply Hdone.
  - destruct (take_task _ _) as [ts|]; [|done]. simpl in Hstep.
    by injection Hstep as <-; left.
  - destruct (take_task _ _) as [ts|]; [|done]. simpl in Hstep.
    injection Hstep as <-. left.
    unfold formList_error, settle. simpl.
    destruct (_ !! deferred) as [[]|]; simpl; by rewrite ?updateSyncStatus_heap.
  - destruct (take_tables _ _) as [[data ts]|]; [|done]. simpl in Hstep.
    injection Hstep as <-. left.
    unfold tables_then, settle. simpl.
    by destruct (_ !! deferred) as [[]|].
  - destruct (take_task _ _) as [ts|] eqn:Et; [|done]. simpl in Hstep.
    pose proof Et as Esplit.
    apply take_task_split in Esplit as (l1 & l2 & Ht & ->).
    assert (HI1 : Inv (set_tasks (l1 ++ l2) s))
      by by apply (Inv_take s (TThen promise)).
    destruct (promises s !! promise) as [[|formList|response]|] eqn:Ep;
      try done; injection Hstep as <-; [|by left].
    destruct (decide (selected formList = [])) as [E|E].
    + left. by rewrite synchronize_then_none.
    + right. exists promise, formList, (l1 ++ l2).
      by rewrite synchronize_then_some.
  - destruct (take_task _ _) as [ts|] eqn:Et; [|done].
    apply take_task_split in Et as (l1 & l2 & Ht & ->).
    destruct (inv_no_timeout s HI). rewrite Ht.
    apply elem_of_middle. by left.
Qed.

(** C7. A job is pending when it is made, by the constructor and so by
    the generator.  A run moves the job it is called on from pending to
    active, if it is pending, and changes nothing else of it and no
    other job, in whatever state it is called.  A job that an event
    makes is made pending by the generator, in the callback of the
    driver, and run there: it is active when the event is over.  An
    event leaves a job that was there before as it is or moves its
    status by one step, from pending to active or from active to success
    or error, and changes nothing else of it; a job that has succeeded
    or failed is never changed again, whatever events follow. *)
Theorem status_lifecycle :
  (∀ type mode tableName ref,
     job_status (new_SyncJob type mode tableName ref) = pending) ∧
  (∀ formList s j job,
     heap s !! j = None →
     heap (generateSyncJobs formList s).2 !! j = Some job →
     job_status job = pending) ∧
  (∀ self s j job,
     heap s !! j = Some job →
     heap (run self s) !! j =
     Some (if bool_decide (j = self ∧ job_status job = pending)
           then with_status active job else job)) ∧
  (∀ s ev s' j job,
     reachable s → step ev s = Some s' →
     heap s !! j = None → heap s' !! j = Some job →
     ∃ promise formList ts made,
       ev = EvThen promise ∧
       take_task (TThen promise) (tasks s) = Some ts ∧
       promises s !! promise = Some (PResolved formList) ∧
       heap (generateSyncJobs formList (set_tasks ts s)).2 !! j = Some made ∧
       job_status made = pending ∧
       job = with_status active made) ∧
  (∀ s ev s' j job,
     reachable s → step ev s = Some s' → heap s !! j = Some job →
     ∃ job', heap s' !! j = Some job' ∧ job_moves job job') ∧
  (∀ evs s s' j job,
     reachable s → steps evs s = Some s' → heap s !! j = Some job →
     job_status job = success ∨ job_status job = error →
     heap s' !! j = Some job).
Proof.
  split; [done|]. split; [|split; [|split; [|split]]].
  - intros formList s j job Hnone Hsome.
    rewrite generateSyncJobs_eq in Hsome. simpl in Hsome.
    apply lookup_ge_None in Hnone. rewrite lookup_app_r in Hsome by done.
    apply list_lookup_fmap_Some_1 in Hsome as (form & -> & _). done.
  - intros self s j job. apply run_heap.
  - intros s ev s' j job Hr Hstep Hnone Hsome.
    apply lookup_ge_None in Hnone.
    destruct (step_made ev s s' (reachable_Inv s Hr) Hstep)
      as [Hlen|(promise & formList & ts & -> & Et & Ep & Hsel & ->)].
    + apply lookup_lt_Some in Hsome. lia.
    + simpl in Hsome, Hnone. rewrite lookup_app_r in Hsome by done.
      apply list_lookup_fmap_Some_1 in Hsome as (form & -> & Hform).
      exists promise, formList, ts, (form_job form).
      repeat split; try done.
      rewrite generateSyncJobs_eq. simpl. rewrite lookup_app_r by done.
      by rewrite list_lookup_fmap, Hform.
  - intros s ev s' j job Hr. apply step_job. by apply reachable_Inv.
  - induction evs as [|ev evs IH]; intros s s' j job Hr Hs Hj Hst;
      simpl in Hs.
    + by injection Hs as <-.
    + destruct (step ev s) as [s1|] eqn:E; [|done]. simpl in Hs.
      apply (IH s1 s'); try done; [by apply (reachable_step s ev)|].
      destruct (step_job ev s s1 j job (reachable_Inv s Hr) E Hj)
        as (job' & Hj' & [->|[Htr _]]); [done|].
      destruct Hst as [Hst|Hst]; rewrite Hst in Htr; inversion Htr.
Qed.

Lemma status_lifecycle_witness :
  heap (run 2 three_jobs) !! 2 = Some (with_status active job0) ∧
  (∃ promise formList ts made,
     EvThen 0 = EvThen promise ∧
     take_task (TThen promise) (tasks listed) = Some ts ∧
     promises listed !! promise = Some (PResolved formList) ∧
     heap (generateSyncJobs formList (set_tasks ts listed)).2 !! 0
       = Some made ∧
     job_status made = pending ∧
     with_status active job0 = with_status active made) ∧
  heap after_failed_fetch !! 0 = Some (with_status success job0).
Proof.
  split; [|split].
  - apply (proj1 (proj2 (proj2 status_lifecycle)) 2 three_jobs 2 job0).
    reflexivity.
  - apply (proj1 (proj2 (proj2 (proj2 status_lifecycle)))
             listed (EvThen 0)
             (started (selected two_forms) (set_tasks [] listed)) 0
             (with_status active job0)).
    + by apply (steps_reachable [EvSynchronize (Some two_forms)] init);
        [constructor|].
    + reflexivity.
    + reflexivity.
    + reflexivity.
  - apply (proj2 (proj2 (proj2 (proj2 (proj2 status_lifecycle))))
             failed_fetch after_one_run after_failed_fetch 0
             (with_status success job0)).
    + apply after_one_run_reachable.
    + reflexivity.
    + reflexivity.
    + left. reflexivity.
Defined.

(** ** Promises settle once *)

Lemma settle_keeps p v s q w :
  promises s !! q = Some w → w ≠ PPending →
  promises (settle p v s) !! q = Some w.
Proof.
  intros Hq Hw. unfold settle.
  destruct (promises s !! p) as [[]|] eqn:E; try done. simpl.
  rewrite list_lookup_insert_ne; [done|]. intros ->. congruence.
Qed.

Lemma step_promise ev s s' q w :
  Inv s → step ev s = Some s' →
  promises s !! q = Some w → w ≠ PPending →
  promises s' !! q = Some w.
Proof.
  intros HI Hstep Hq Hw.
  assert (Hidle : ∀ s0, promises s0 = promises s →
                        promises (updateSyncStatus s0) !! q = Some w).
  { intros s0 E. unfold updateSyncStatus. destruct (statusUpdate s0); simpl;
      [|case_bool_decide; simpl]; by rewrite E. }
  destruct ev; simpl in Hstep.
  - injection Hstep as <-.
    destruct (decide (syncJobs s = [])) as [Hempty|Hbusy].
    + rewrite synchronize_idle by done. simpl.
      destruct (getFormList_cases forms (set_syncInProgress true s))
        as [(form & l & _ & ->)|[_ ->]]; simpl;
        (rewrite lookup_app_l; [done | by eapply lookup_lt_Some]).
    + by rewrite synchronize_busy.
  - destruct (take_task _ _) as [ts|]; [|done]. simpl in Hstep.
    injection Hstep as <-. apply Hidle.
    by destruct (set_status_fields job success (set_tasks ts s))
      as (_ & _ & _ & -> & _).
  - destruct (take_task _ _) as [ts|]; [|done]. simpl in Hstep.
    injection Hstep as <-. apply Hidle.
    by destruct (set_status_fields job error (set_tasks ts s))
      as (_ & _ & _ & -> & _).
  - destruct (take_task _ _) as [ts|]; [|done]. simpl in Hstep.
    by injection Hstep as <-.
  - destruct (take_task _ _) as [ts|]; [|done]. simpl in Hstep.
    injection Hstep as <-. unfold formList_error.
    apply settle_keeps; [|done]. simpl. by apply Hidle.
  - destruct (take_tables _ _) as [[data ts]|]; [|done]. simpl in Hstep.
    injection Hstep as <-. by apply settle_keeps.
  - destruct (take_task _ _) as [ts|] eqn:Et; [|done]. simpl in Hstep.
    apply take_task_split in Et as (l1 & l2 & Ht & ->).
    assert (HI1 : Inv (set_tasks (l1 ++ l2) s))
      by by apply (Inv_take s (TThen promise)).
    destruct (promises s !! promise) as [[|formList|response]|]; try done;
      injection Hstep as <-; [|done].
    destruct (decide (selected formList = [])) as [E|E].
    + by rewrite synchronize_then_none.
    + by rewrite synchronize_then_some.
  - destruct (take_task _ _) as [ts|]; [|done]. simpl in Hstep.
    injection Hstep as <-. by apply Hidle.
Qed.

Lemma steps_promise evs : ∀ s s' q w,
  Inv s → steps evs s = Some s' →
  promises s !! q = Some w → w ≠ PPending →
  promises s' !! q = Some w.
Proof.
  induction evs as [|ev evs IH]; intros s s' q w HI Hs Hq Hw; simpl in Hs.
  - by injection Hs as <-.
  - destruct (step ev s) as [s1|] eqn:E; [|done]. simpl in Hs.
    apply (IH s1); try done; [by apply (Inv_step ev s)|].
    by apply (step_promise ev s).
Qed.

(** ** The queue drains *)

Lemma take_task_elem k ts : k ∈ ts → is_Some (take_task k ts).
Proof.
  induction ts as [|k' ts IH]; intros Hin; [by apply elem_of_nil in Hin|].
  simpl. destruct (decide (k' = k)); [done|].
  apply elem_of_cons in Hin as [->|Hin]; [done|].
  destruct (IH Hin) as [ts' ->]. done.
Qed.

(** Once each job of the queue has had its answer, whatever the answers
    and their order, the queue is empty and the flag is false. *)
Lemma queue_drains (answers : list (nat * option Response)) : ∀ s,
  Inv s →
  syncInProgress s = bool_decide (0 < length (syncJobs s)) →
  NoDup answers.*1 →
  (∀ j, j ∈ answers.*1 ↔ j ∈ syncJobs s) →
  ∃ s', steps (map answer_event answers) s = Some s' ∧
        syncJobs s' = [] ∧ syncInProgress s' = false.
Proof.
  induction answers as [|[j o] answers IH]; intros s HI Hflag Hnd Hjobs.
  - exists s. split; [done|].
    assert (syncJobs s = []) as Hq.
    { apply elem_of_nil_inv. intros j Hj. apply Hjobs in Hj.
      by apply elem_of_nil in Hj. }
    split; [done|]. by rewrite Hflag, Hq.
  - simpl in Hnd. apply NoDup_cons in Hnd as [Hj Hnd].
    assert (Hjq : j ∈ syncJobs s) by (apply Hjobs; apply list_elem_of_here).
    pose proof (inv_queue_getform s HI j Hjq) as Hjt.
    apply elem_of_getform_jobs in Hjt.
    destruct (take_task_elem _ _ Hjt) as [ts Ets].
    set (st := match o with None => success | Some _ => error end).
    assert (Hstep : step (answer_event (j, o)) s =
                    Some (updateSyncStatus (set_status j st (set_tasks ts s)))).
    { unfold answer_event. destruct o; simpl; by rewrite Ets. }
    set (s1 := updateSyncStatus (set_status j st (set_tasks ts s))) in *.
    assert (HI1 : Inv s1) by by apply (Inv_step (answer_event (j, o)) s).
    assert (Hs1 : s1 = updateSyncStatus (set_status j st (set_tasks ts s)))
      by done.
    rewrite updateSyncStatus_idle in Hs1
      by (by destruct (set_status_fields j st (set_tasks ts s))
            as (_ & -> & _); apply (inv_idle s HI)).
    assert (Hq1 : ∀ i, i ∈ syncJobs s1 ↔ i ∈ syncJobs s ∧ i ≠ j).
    { intros i. rewrite Hs1. simpl. rewrite list_elem_of_filter.
      destruct (set_status_fields j st (set_tasks ts s)) as (-> & _).
      simpl. unfold job_open. rewrite set_status_lookup. simpl.
      split.
      - intros [Ho Hi]. split; [done|]. intros ->.
        rewrite decide_True in Ho by done.
        destruct (heap s !! j); simpl in Ho; [|done]. by destruct o.
      - intros [Hi Hne]. split; [|done]. rewrite decide_False by done.
        pose proof (inv_queue_active s HI i Hi) as Ha.
        unfold status_at in Ha. destruct (heap s !! i); [|done].
        simpl in Ha. by injection Ha as ->. }
    destruct (IH s1 HI1) as (s' & Hsteps & Hq & Hf).
    + by rewrite Hs1.
    + done.
    + intros i. rewrite Hq1. rewrite <- Hjobs. simpl.
      rewrite elem_of_cons. split; [|intros [[->|?] ?]; done].
      intros Hi. split; [by right|]. intros ->. done.
    + exists s'. split; [|done]. simpl map. simpl steps.
      rewrite Hstep. done.
Qed.

Lemma fetching_reachable : reachable fetching.
Proof.
  by apply (steps_reachable (one_run ++ [EvSynchronize None]) init);
    [constructor|].
Qed.

(** ** The catalog request fails *)

(** C6. When the catalog request of a deferred fails, the promise, which
    was pending, is rejected with the response and stays so; the error
    is notified; no job is made, the queue is as it was, and the flag
    tells whether the queue has a job, so it is false when the queue is
    empty; the callback of the driver on that promise is dropped without
    doing anything when its turn comes; and once the jobs still in the
    queue have had their answers the flag is false. *)
Theorem formList_failure
    (s : State) (p : nat) (response : Response) (s' : State) :
  reachable s →
  step (EvFormListErr p response) s = Some s' →
  promises s !! p = Some PPending ∧
  promises s' !! p = Some (PRejected response) ∧
  calls s' = calls s ++ [CHttpError response] ∧
  heap s' = heap s ∧
  syncJobs s' = syncJobs s ∧
  syncInProgress s' = bool_decide (syncJobs s ≠ []) ∧
  (∀ evs s2, steps evs s' = Some s2 →
     promises s2 !! p = Some (PRejected response) ∧
     ∀ s3, step (EvThen p) s2 = Some s3 → s3 = set_tasks (tasks s3) s2) ∧
  (∀ answers : list (nat * option Response),
     NoDup answers.*1 →
     (∀ j, j ∈ answers.*1 ↔ j ∈ syncJobs s') →
     ∃ s2, steps (map answer_event answers) s' = Some s2 ∧
           syncJobs s2 = [] ∧ syncInProgress s2 = false).
Proof.
  intros Hr Hstep. pose proof (reachable_Inv s Hr) as HI.
  assert (HI' : Inv s') by by apply (Inv_step (EvFormListErr p response) s).
  simpl in Hstep.
  destruct (take_task _ _) as [ts|] eqn:Et; [|done]. simpl in Hstep.
  injection Hstep as Hs'.
  apply take_task_split in Et as (l1 & l2 & Ht & ->).
  destruct (fetch_taken s _ p l1 l2 HI Ht) as [Hn Hp]; [by left|].
  assert (HI1 : Inv (set_tasks (l1 ++ l2) s))
    by by apply (Inv_take s (TFormList p)).
  unfold formList_error in Hs'. rewrite (updateSyncStatus_Inv _ HI1) in Hs'.
  unfold settle in Hs'. simpl in Hs'. rewrite Hp in Hs'.
  assert (Hrej : promises s' !! p = Some (PRejected response)).
  { rewrite <- Hs'. simpl. apply list_lookup_insert_eq.
    by eapply lookup_lt_Some. }
  assert (Hflag : syncInProgress s' = bool_decide (0 < length (syncJobs s')))
    by by rewrite <- Hs'.
  split; [done|]. split; [done|].
  split; [by rewrite <- Hs'|]. split; [by rewrite <- Hs'|].
  split; [by rewrite <- Hs'|]. split; [|split].
  - rewrite <- Hs'. simpl. apply bool_decide_ext.
    destruct (syncJobs s); simpl; split; (done || lia).
  - intros evs s2 Hsteps.
    assert (Hrej2 : promises s2 !! p = Some (PRejected response))
      by by apply (steps_promise evs s').
    split; [done|]. intros s3 Hthen. simpl in Hthen.
    destruct (take_task _ _) as [ts|]; [|done]. simpl in Hthen.
    rewrite Hrej2 in Hthen. by injection Hthen as <-.
  - intros answers Hnd Hjobs. by apply queue_drains.
Qed.

Lemma formList_failure_witness :
  promises after_failed_fetch !! 1 = Some (PRejected unavailable) ∧
  syncInProgress after_failed_fetch = false.
Proof.
  pose proof (formList_failure fetching 1 unavailable after_failed_fetch
                fetching_reachable eq_refl) as H.
  split; [exact (proj1 (proj2 H)) | exact (proj1 (proj2 (proj2 (proj2
    (proj2 (proj2 H))))))].
Defined.

(** ** The driver *)

Lemma synchronize_flag forms s : syncInProgress (synchronize forms s) = true.
Proof.
  unfold synchronize.
  assert (Hrun : ∀ q s0, syncInProgress s0 = true →
    syncInProgress
      (foldl (λ s job,
                if bool_decide (status_at s job = Some pending)
                then run job s else s) s0 q) = true).
  { induction q as [|j q IH]; intros s0 H0; [done|]. simpl. apply IH.
    case_bool_decide; [|done]. unfold run.
    destruct (heap s0 !! j); [|done]. case_bool_decide; [done|]. simpl.
    by destruct (set_status_fields j active s0) as (_ & _ & -> & _). }
  case_bool_decide; [by apply Hrun|].
  unfold getFormList, settle. simpl.
  destruct forms as [[|form l]|]; simpl; try done.
  by destruct (_ !! _) as [[]|].
Qed.

Lemma synchronize_then_cases formList s :
  synchronize_then formList s =
  if bool_decide (selected formList ≠ [])
  then synchronize (Some formList) (generateSyncJobs formList s).2
  else updateSyncStatus s.
Proof.
  unfold synchronize_then. destruct (decide (selected formList = [])) as [E|E].
  - rewrite generateSyncJobs_none by done.
    rewrite bool_decide_eq_false_2 by lia.
    by rewrite bool_decide_eq_false_2 by (intros H; by apply H).
  - rewrite generateSyncJobs_eq. simpl.
    rewrite bool_decide_eq_true_2
      by (destruct (selected formList); simpl; [done|lia]).
    by rewrite bool_decide_eq_true_2.
Qed.

Lemma Inv_resolved formList cs s : Inv s → Inv (resolved formList cs s).
Proof.
  intros HI.
  apply (Inv_same (set_promises (promises s ++ [PResolved formList]) s));
    try done.
  by apply Inv_promises_app.
Qed.

Lemma steps_cons ev evs s s1 :
  step ev s = Some s1 → steps (ev :: evs) s = steps evs s1.
Proof. intros E. simpl. by rewrite E. Qed.

Lemma step_then_resolved s p formList ts :
  take_task (TThen p) (tasks s) = Some ts →
  promises s !! p = Some (PResolved formList) →
  step (EvThen p) s = Some (synchronize_then formList (set_tasks ts s)).
Proof. intros Et Ep. simpl. rewrite Et. simpl. by rewrite Ep. Qed.

Lemma step_formList_ok s p data ts :
  take_task (TFormList p) (tasks s) = Some ts →
  step (EvFormListOk p data) s =
  Some (formList_success p data (set_tasks ts s)).
Proof. intros Et. simpl. by rewrite Et. Qed.

Lemma step_tables_ok s p tableNames data ts :
  take_tables p (tasks s) = Some (data, ts) →
  step (EvTablesOk p tableNames) s =
  Some (tables_then p data tableNames (set_tasks ts s)).
Proof. intros Et. simpl. by rewrite Et. Qed.

(** One call of the driver, made with a list, and its callback. *)
Lemma driver_cached s form l :
  Inv s → syncJobs s = [] →
  steps [EvSynchronize (Some (form :: l)); EvThen (length (promises s))] s =
  Some (synchronize_then (form :: l) (resolved (form :: l) [] s)).
Proof.
  intros HI Hq.
  assert (Hthen : TThen (length (promises s)) ∉ tasks s).
  { intros Hin. apply elem_of_then_promises, (inv_then_bound s HI) in Hin.
    lia. }
  rewrite (steps_cons _ _ s (synchronize (Some (form :: l)) s)) by done.
  rewrite synchronize_idle by done.
  destruct (getFormList_cases (Some (form :: l)) (set_syncInProgress true s))
    as [(form' & l' & E & ->)|[[E|E] _]]; try done.
  injection E as <- <-.
  erewrite steps_cons.
  2:{ apply step_then_resolved.
      - simpl. by apply (take_task_new _ (tasks s) []).
      - simpl. rewrite lookup_app_r by lia. by rewrite Nat.sub_diag. }
  simpl. unfold resolved. by rewrite !app_nil_r.
Qed.

(** One call of the driver, made without a list, the two answers and
    the callback. *)
Lemma driver_fetched s forms data tableNames :
  Inv s → syncJobs s = [] → forms = None ∨ forms = Some [] →
  steps [EvSynchronize forms;
         EvFormListOk (length (promises s)) data;
         EvTablesOk (length (promises s)) tableNames;
         EvThen (length (promises s))] s =
  Some (synchronize_then (updateFormList [] tableNames data)
          (resolved (updateFormList [] tableNames data)
                    [CFormList; CTables] s)).
Proof.
  intros HI Hq Hforms.
  assert (Hfresh : length (promises s) ∉ fetch_deferreds (tasks s)).
  { intros Hin. apply (inv_fetch_pending s HI) in Hin.
    apply lookup_lt_Some in Hin. lia. }
  assert (Hthen : TThen (length (promises s)) ∉ tasks s).
  { intros Hin. apply elem_of_then_promises, (inv_then_bound s HI) in Hin.
    lia. }
  rewrite (steps_cons _ _ s (synchronize forms s)) by done.
  rewrite synchronize_idle by done.
  destruct (getFormList_cases forms (set_syncInProgress true s))
    as [(form' & l' & E & _)|[_ ->]].
  { destruct Hforms; congruence. }
  erewrite steps_cons.
  2:{ apply step_formList_ok. simpl. rewrite <- app_assoc. simpl.
      apply take_task_new. intros Hin.
      apply Hfresh, elem_of_fetch_deferreds. by left. }
  erewrite steps_cons.
  2:{ apply step_tables_ok. simpl.
      apply (take_tables_new _ _ (tasks s ++ [TThen (length (promises s))]) []).
      rewrite fetch_deferreds_app. simpl. by rewrite app_nil_r. }
  erewrite steps_cons.
  2:{ apply step_then_resolved.
      - unfold tables_then. erewrite (settle_fresh (promises s)) by done.
        simpl. rewrite app_nil_r. by apply (take_task_new _ (tasks s) []).
      - unfold tables_then. simpl.
        erewrite (settle_fresh (promises s)) by done. simpl.
        rewrite lookup_app_r by lia. by rewrite Nat.sub_diag. }
  simpl. unfold tables_then.
  erewrite (settle_fresh (promises s)) by done. simpl.
  unfold resolved. rewrite ?app_nil_r. do 2 f_equal.
  apply State_eq; try reflexivity.
  cbn [calls set_tasks set_promises formList_success later call set_calls
       set_syncInProgress].
  by rewrite <- app_assoc.
Qed.

(** C5. [synchronize] sets the flag.  With jobs in the queue it runs
    those that are pending, and only those: they become active, a
    request goes out for each, and no promise or callback is made.  With
    an empty queue it asks for the form list and leaves its callback on
    the promise, starting no job.  The callback schedules the jobs of
    the list and calls [synchronize] with the list if there are any, and
    runs a status-aggregation pass if there are none.  When a call made
    with an empty queue goes on undisturbed, with the list it was given
    or with the one made from the answers of the server and the local
    store, the flag is false again at the end if the list has nothing to
    download, and otherwise the jobs of the list are in the queue, all
    of them active.  Whenever the callback runs, with nothing to
    download the pass leaves the jobs and the queue alone and sets the
    flag to whether the queue has a job, and the flag is false once
    those jobs have had their answers. *)
Theorem synchronize_driver :
  (∀ forms s, syncInProgress (synchronize forms s) = true) ∧
  (∀ forms s,
     syncJobs s ≠ [] → NoDup (syncJobs s) →
     let s' := synchronize forms s in
     syncJobs s' = syncJobs s ∧
     promises s' = promises s ∧
     (∀ j, heap s' !! j =
           if decide (j ∈ syncJobs s ∧ status_at s j = Some pending)
           then with_status active <$> heap s !! j
           else heap s !! j) ∧
     tasks s' = tasks s ++ map TGetForm (pending_of s (syncJobs s)) ∧
     calls s' = calls s ++ omap (job_call s) (pending_of s (syncJobs s))) ∧
  (∀ forms s,
     syncJobs s = [] →
     let s' := synchronize forms s in
     s' = later (TThen (length (promises s)))
                (getFormList forms (set_syncInProgress true s)).2 ∧
     heap s' = heap s ∧ syncJobs s' = []) ∧
  (∀ formList s,
     synchronize_then formList s =
     if bool_decide (selected formList ≠ [])
     then synchronize (Some formList) (generateSyncJobs formList s).2
     else updateSyncStatus s) ∧
  (∀ s,
     reachable s → syncJobs s = [] →
     (∀ form l,
        steps [EvSynchronize (Some (form :: l));
               EvThen (length (promises s))] s =
        Some (synchronize_then (form :: l) (resolved (form :: l) [] s))) ∧
     (∀ forms data tableNames,
        forms = None ∨ forms = Some [] →
        steps [EvSynchronize forms;
               EvFormListOk (length (promises s)) data;
               EvTablesOk (length (promises s)) tableNames;
               EvThen (length (promises s))] s =
        Some (synchronize_then (updateFormList [] tableNames data)
                (resolved (updateFormList [] tableNames data)
                          [CFormList; CTables] s))) ∧
     (∀ formList cs,
        let s' := synchronize_then formList (resolved formList cs s) in
        (selected formList = [] →
         syncInProgress s' = false ∧ syncJobs s' = [] ∧ heap s' = heap s) ∧
        (selected formList ≠ [] →
         s' = started (selected formList) (resolved formList cs s)))) ∧
  (∀ s p formList s',
     reachable s →
     promises s !! p = Some (PResolved formList) →
     step (EvThen p) s = Some s' →
     (selected formList ≠ [] →
      ∃ ts, s' = started (selected formList) (set_tasks ts s)) ∧
     (selected formList = [] →
      heap s' = heap s ∧ syncJobs s' = syncJobs s ∧
      syncInProgress s' = bool_decide (syncJobs s ≠ []) ∧
      ∀ answers : list (nat * option Response),
        NoDup answers.*1 →
        (∀ j, j ∈ answers.*1 ↔ j ∈ syncJobs s') →
        ∃ s2, steps (map answer_event answers) s' = Some s2 ∧
              syncJobs s2 = [] ∧ syncInProgress s2 = false)).
Proof.
  split; [apply synchronize_flag|].
  split; [|split; [|split; [apply synchronize_then_cases|split]]].
  - intros forms s Hq Hnd s'. subst s'. unfold synchronize.
    rewrite bool_decide_eq_true_2
      by (simpl; destruct (syncJobs s); simpl; [done|lia]).
    destruct (run_queue (syncJobs s) (set_syncInProgress true s) Hnd)
      as (H1 & _ & _ & H4 & _ & H6 & H7 & H8).
    done.
  - intros forms s Hq s'. subst s'. rewrite synchronize_idle by done.
    split; [done|]. unfold getFormList, settle. simpl.
    destruct forms as [[|form l]|]; simpl; try done.
    by destruct (_ !! _) as [[]|].
  - intros s Hr Hq. pose proof (reachable_Inv s Hr) as HI.
    split; [intros; by apply driver_cached|].
    split; [intros; by apply driver_fetched|].
    intros formList cs s'. subst s'.
    pose proof (Inv_resolved formList cs s HI) as HI'.
    split; intros E.
    + rewrite synchronize_then_none by done. simpl. by rewrite Hq.
    + by apply synchronize_then_some.
  - intros s p formList s' Hr Hp Hstep.
    pose proof (reachable_Inv s Hr) as HI.
    assert (HI' : Inv s') by by apply (Inv_step (EvThen p) s).
    simpl in Hstep.
    destruct (take_task _ _) as [ts|] eqn:Et; [|done]. simpl in Hstep.
    rewrite Hp in Hstep. injection Hstep as Hs'.
    apply take_task_split in Et as (l1 & l2 & Ht & ->).
    assert (HI1 : Inv (set_tasks (l1 ++ l2) s))
      by by apply (Inv_take s (TThen p)).
    split; intros E.
    + exists (l1 ++ l2). rewrite <- Hs'. by apply synchronize_then_some.
    + rewrite synchronize_then_none in Hs' by done.
      assert (Hflag : syncInProgress s' = bool_decide (0 < length (syncJobs s')))
        by by rewrite <- Hs'.
      split; [by rewrite <- Hs'|]. split; [by rewrite <- Hs'|]. split.
      * rewrite <- Hs'. simpl. apply bool_decide_ext.
        destruct (syncJobs s); simpl; split; (done || lia).
      * intros answers Hnd Hjobs. by apply queue_drains.
Qed.

(** C5, as it is worded, fails when two calls overlap.  The callback of
    a call that was made with an empty queue and whose list schedules no
    job runs its status-aggregation pass while the job of the other call
    is active: the flag is true after the pass, not false. *)
Lemma synchronize_overlapping_calls :
  steps overlapping init = Some before_pass ∧
  promises before_pass !! 0 = Some (PResolved []) ∧
  (generateSyncJobs [] before_pass).1 = 0 ∧
  step (EvThen 0) before_pass = Some after_pass ∧
  syncInProgress after_pass = true.
Proof. repeat split; vm_compute; reflexivity. Qed.

Lemma synchronize_driver_witness :
  syncInProgress
    (synchronize_then (drop 1 two_forms)
       (resolved (drop 1 two_forms) [] after_one_run)) = false.
Proof.
  pose proof (proj1 (proj2 (proj2 (proj2 (proj2 synchronize_driver))))
                after_one_run after_one_run_reachable eq_refl) as H.
  exact (proj1 (proj1 (proj2 (proj2 H) (drop 1 two_forms) []) eq_refl)).
Defined.

(** The second example of the specification: a call of the driver with
    no list and two forms in the catalog makes two jobs, both active at
    once; one succeeds, one fails, and the flag is false. *)
Example driver_example :
  (λ s, (syncInProgress s, syncJobs s, map job_status (heap s))) <$>
    steps [EvSynchronize (Some []); EvFormListOk 0 catalog;
           EvTablesOk 0 ["incident"]; EvThen 0] init =
    Some (true, [0; 1], [active; active]) ∧
  (λ s, (syncInProgress s, syncJobs s, map job_status (heap s))) <$>
    steps [EvSynchronize (Some []); EvFormListOk 0 catalog;
           EvTablesOk 0 ["incident"]; EvThen 0;
           EvGetFormOk 0; EvGetFormErr 1 unavailable] init =
    Some (false, [], [success; error]).
Proof. split; vm_compute; reflexivity. Qed.

(** * Further properties *)

(** ** What an event does *)

Lemma answered_state s j st job l1 l2 :
  Inv s → tasks s = l1 ++ TGetForm j :: l2 →
  heap s !! j = Some job → is_open st = false →
  updateSyncStatus (set_status j st (set_tasks (l1 ++ l2) s)) =
  {| heap := <[j := with_status st job]> (heap s);
     syncJobs := filter (λ i, i ≠ j) (syncJobs s);
     statusUpdate := false;
     syncInProgress :=
       bool_decide (0 < length (filter (λ i, i ≠ j) (syncJobs s)));
     promises := promises s;
     tasks := l1 ++ l2;
     calls := calls s |}.
Proof.
  intros HI Ht Hjob Hst.
  assert (Hset : set_status j st (set_tasks (l1 ++ l2) s) =
                 set_heap (<[j := with_status st job]> (heap s))
                          (set_tasks (l1 ++ l2) s)).
  { unfold set_status. simpl. by rewrite Hjob. }
  rewrite Hset. rewrite updateSyncStatus_idle by apply (inv_idle s HI).
  simpl.
  assert (Hf : filter (λ i, job_open (<[j := with_status st job]> (heap s)) i
                           = true) (syncJobs s) =
               filter (λ i, i ≠ j) (syncJobs s)).
  { apply filter_ext_in. intros i Hi. unfold job_open.
    destruct (decide (i = j)) as [->|Hne].
    - rewrite list_lookup_insert_eq by (by eapply lookup_lt_Some).
      simpl. rewrite Hst. split; [done | intros H; by destruct H].
    - rewrite list_lookup_insert_ne by done.
      pose proof (inv_queue_active s HI i Hi) as Ha. unfold status_at in Ha.
      destruct (heap s !! i); [|done]. simpl in Ha. injection Ha as ->.
      done. }
  by rewrite Hf.
Qed.

(** On a state between two events, an event does one of ten things. *)
Lemma step_moved ev s s' : Inv s → step ev s = Some s' → moved s s'.
Proof.
  intros HI Hstep.
  assert (Hanswer : ∀ j st ts, take_task (TGetForm j) (tasks s) = Some ts →
            is_open st = false →
            moved s (updateSyncStatus (set_status j st (set_tasks ts s)))).
  { intros j st ts Et Hst.
    apply take_task_split in Et as (l1 & l2 & Ht & ->).
    assert (Hj : status_at s j = Some active).
    { apply (inv_getform_active s HI). rewrite Ht.
      apply elem_of_getform_jobs, elem_of_middle. by left. }
    unfold status_at in Hj. destruct (heap s !! j) as [job|] eqn:Hjob; [|done].
    simpl in Hj. injection Hj as Hj.
    rewrite (answered_state s j st job l1 l2) by done.
    by apply moved_answered. }
  destruct ev; simpl in Hstep.
  - injection Hstep as <-. destruct (decide (syncJobs s = [])) as [Hq|Hq].
    + rewrite synchronize_idle by done.
      destruct (getFormList_cases forms (set_syncInProgress true s))
        as [(form & l & _ & ->)|[_ ->]]; simpl.
      * by apply moved_cached.
      * by apply moved_fetch.
    + rewrite synchronize_busy by done. by apply moved_busy.
  - destruct (take_task _ _) as [ts|] eqn:Et; [|done]. simpl in Hstep.
    injection Hstep as <-. by apply Hanswer.
  - destruct (take_task _ _) as [ts|] eqn:Et; [|done]. simpl in Hstep.
    injection Hstep as <-. by apply Hanswer.
  - destruct (take_task _ _) as [ts|] eqn:Et; [|done]. simpl in Hstep.
    injection Hstep as <-.
    apply take_task_split in Et as (l1 & l2 & Ht & ->).
    by apply moved_catalog.
  - destruct (take_task _ _) as [ts|] eqn:Et; [|done]. simpl in Hstep.
    injection Hstep as <-.
    apply take_task_split in Et as (l1 & l2 & Ht & ->).
    destruct (fetch_taken s _ deferred l1 l2 HI Ht) as [Hn Hp]; [by left|].
    assert (HI1 : Inv (set_tasks (l1 ++ l2) s))
      by by apply (Inv_take s (TFormList deferred)).
    unfold formList_error. rewrite (updateSyncStatus_Inv _ HI1).
    unfold settle. simpl. rewrite Hp. by apply moved_failed.
  - destruct (take_tables _ _) as [[data ts]|] eqn:Et; [|done].
    simpl in Hstep. injection Hstep as <-.
    apply take_tables_split in Et as (l1 & l2 & Ht & ->).
    destruct (fetch_taken s _ deferred l1 l2 HI Ht) as [Hn Hp];
      [right; by eexists|].
    unfold tables_then, settle. simpl. rewrite Hp. by eapply moved_tables.
  - destruct (take_task _ _) as [ts|] eqn:Et; [|done]. simpl in Hstep.
    apply take_task_split in Et as (l1 & l2 & Ht & ->).
    assert (HI1 : Inv (set_tasks (l1 ++ l2) s))
      by by apply (Inv_take s (TThen promise)).
    destruct (promises s !! promise) as [[|formList|response]|] eqn:Ep;
      try done; injection Hstep as <-.
    + destruct (decide (selected formList = [])) as [E|E].
      * rewrite synchronize_then_none by done.
        exact (moved_none s promise formList l1 l2 Ht Ep E).
      * rewrite synchronize_then_some by done. by eapply moved_some.
    + by eapply moved_dropped.
  - destruct (take_task _ _) as [ts|] eqn:Et; [|done].
    apply take_task_split in Et as (l1 & l2 & Ht & ->).
    destruct (inv_no_timeout s HI). rewrite Ht.
    apply elem_of_middle. by left.
Qed.

(** Induction over the reachable states, event by event. *)
Lemma reachable_moved_ind (P : State → Prop) :
  P init →
  (∀ s s', reachable s → Inv s → P s → moved s s' → P s') →
  ∀ s, reachable s → P s.
Proof.
  intros Hinit Hmove s Hr. induction Hr as [|s ev s' Hr IH Hstep]; [done|].
  apply (Hmove s s'); try done; [by apply reachable_Inv|].
  apply (step_moved ev); [by apply reachable_Inv | done].
Qed.

Lemma before_pass_reachable : reachable before_pass.
Proof.
  apply (steps_reachable overlapping init); [constructor|].
  vm_compute. reflexivity.
Qed.

(** ** The flag and the queue *)

Lemma reachable_flag_queue s :
  reachable s → syncJobs s ≠ [] → syncInProgress s = true.
Proof.
  revert s.
  apply (reachable_moved_ind
           (λ s, syncJobs s ≠ [] → syncInProgress s = true)); [done|].
  intros s s' _ HI IH Hm. destruct Hm; simpl; try done.
  - intros Hq. apply bool_decide_eq_true_2.
    destruct (filter _ _); simpl; [done|lia].
  - intros Hq. apply bool_decide_eq_true_2.
    destruct (syncJobs s); simpl; [done|lia].
  - intros Hq. apply bool_decide_eq_true_2.
    destruct (syncJobs s); simpl; [done|lia].
Qed.

(** X1. Between two events the flag is true whenever the queue holds a
    job: it never reads false while a job is pending or active. *)
Theorem flag_covers_queue (s : State) :
  reachable s → syncJobs s ≠ [] → syncInProgress s = true.
Proof. apply reachable_flag_queue. Qed.

Lemma flag_covers_queue_witness : syncInProgress before_pass = true.
Proof.
  apply (flag_covers_queue before_pass before_pass_reachable). discriminate.
Defined.

(** X2. When the flag is true, something is under way: a job is in the
    queue, or a callback of the driver is outstanding on a promise that
    has not been rejected. *)
Theorem flag_has_cause (s : State) :
  reachable s → syncInProgress s = true →
  syncJobs s ≠ [] ∨
  ∃ p, TThen p ∈ tasks s ∧ ∀ response, promises s !! p ≠ Some (PRejected response).
Proof.
  revert s.
  apply (reachable_moved_ind
           (λ s, syncInProgress s = true →
                 syncJobs s ≠ [] ∨
                 ∃ p, TThen p ∈ tasks s ∧
                      ∀ response, promises s !! p ≠ Some (PRejected response)));
    [done|].
  intros s s' _ HI IH Hm.
  assert (Hqueue : ∀ q : list nat, bool_decide (0 < length q) = true → q ≠ []).
  { intros q Hq ->. by apply bool_decide_eq_true_1 in Hq; simpl in Hq; lia. }
  destruct Hm as [Hq|formList Hq|Hq|j st job l1 l2 Ht Hj Ha Hst|p data l1 l2 Ht
                 |p response l1 l2 Ht Hp|p data tableNames l1 l2 Ht Hp
                 |p formList l1 l2 Ht Hp E|p formList l1 l2 Ht Hp E
                 |p response l1 l2 Ht Hp]; simpl; intros Hflag.
  - by left.
  - right. exists (length (promises s)). split.
    + apply elem_of_app. right. apply list_elem_of_here.
    + intros response. rewrite lookup_app_r by lia.
      by rewrite Nat.sub_diag.
  - right. exists (length (promises s)). split.
    + apply elem_of_app. right. apply list_elem_of_here.
    + intros response. rewrite lookup_app_r by lia.
      by rewrite Nat.sub_diag.
  - left. by apply Hqueue.
  - destruct (IH Hflag) as [Hq|(p' & Hin & Hrej)]; [by left|].
    right. exists p'. split; [|done].
    rewrite Ht in Hin. apply elem_of_middle in Hin as [Hin|Hin]; [done|].
    apply elem_of_app. by left.
  - left. by apply Hqueue.
  - destruct (IH Hflag) as [Hq|(p' & Hin & Hrej)]; [by left|].
    right. exists p'. split.
    + rewrite Ht in Hin. by apply elem_of_middle in Hin as [Hin|Hin].
    + intros response. destruct (decide (p' = p)) as [->|Hne].
      * rewrite list_lookup_insert_eq by (by eapply lookup_lt_Some). done.
      * rewrite list_lookup_insert_ne by done. apply Hrej.
  - left. by apply Hqueue.
  - left. destruct (selected formList); [done|].
    simpl. intros Hnil. apply app_eq_nil in Hnil as [_ Hnil]. done.
  - destruct (IH Hflag) as [Hq|(p' & Hin & Hrej)]; [by left|].
    right. exists p'. split; [|done].
    rewrite Ht in Hin. apply elem_of_middle in Hin as [Hin|Hin]; [|done].
    injection Hin as ->. by destruct (Hrej response).
Qed.

Lemma flag_has_cause_witness :
  syncJobs fetching ≠ [] ∨
  ∃ p, TThen p ∈ tasks fetching ∧
       ∀ response, promises fetching !! p ≠ Some (PRejected response).
Proof. apply (flag_has_cause fetching fetching_reachable). reflexivity. Defined.

(** X3. The busy flag is clear between two events, so the branch of
    [updateSyncStatus] that puts the pass off is never taken: no timer
    is outstanding and [$timeout] has never been called. *)
Theorem never_deferred (s : State) :
  reachable s →
  statusUpdate s = false ∧ (TTimeout ∉ tasks s) ∧
  ∀ delay, CTimeout delay ∉ calls s.
Proof.
  intros Hr. pose proof (reachable_Inv s Hr) as HI.
  split; [apply (inv_idle s HI)|]. split; [apply (inv_no_timeout s HI)|].
  clear HI. revert s Hr.
  apply (reachable_moved_ind (λ s, ∀ delay, CTimeout delay ∉ calls s)).
  { intros delay. apply not_elem_of_nil. }
  intros s s' _ HI IH Hm delay.
  destruct Hm; simpl; try apply IH;
    rewrite ?elem_of_app, ?list_elem_of_singleton.
  - intros [Hc|Hc]; [by apply (IH delay)|done].
  - intros [Hc|Hc]; [by apply (IH delay)|done].
  - intros [Hc|Hc]; [by apply (IH delay)|done].
  - intros [Hc|Hc]; [by apply (IH delay)|].
    apply list_elem_of_fmap in Hc as (form & E & _). discriminate.
Qed.

Lemma never_deferred_witness : TTimeout ∉ tasks before_pass.
Proof. apply (never_deferred before_pass before_pass_reachable). Defined.

(** ** Where the jobs are *)

Lemma reachable_jobs s :
  reachable s →
  ∀ j job, heap s !! j = Some job →
    job_status job ≠ pending ∧ (job_status job = active → j ∈ syncJobs s).
Proof.
  revert s.
  apply (reachable_moved_ind
           (λ s, ∀ j job, heap s !! j = Some job →
              job_status job ≠ pending ∧
              (job_status job = active → j ∈ syncJobs s))); [done|].
  intros s s' _ HI IH Hm.
  destruct Hm as [Hq|formList Hq|Hq|j st job l1 l2 Ht Hj Ha Hst|p data l1 l2 Ht
                 |p response l1 l2 Ht Hp|p data tableNames l1 l2 Ht Hp
                 |p formList l1 l2 Ht Hp E|p formList l1 l2 Ht Hp E
                 |p response l1 l2 Ht Hp]; simpl; try apply IH.
  - intros i job' Hi. destruct (decide (i = j)) as [->|Hne].
    + rewrite list_lookup_insert_eq in Hi by (by eapply lookup_lt_Some).
      injection Hi as <-. simpl. by destruct st.
    + rewrite list_lookup_insert_ne in Hi by done.
      destruct (IH i job' Hi) as [Hp Hact]. split; [done|].
      intros Hact'. apply list_elem_of_filter. split; [done | by apply Hact].
  - intros i job' Hi. destruct (decide (i < length (heap s))) as [Hlt|Hge].
    + rewrite lookup_app_l in Hi by done.
      destruct (IH i job' Hi) as [Hp' Hact]. split; [done|].
      intros Hact'. apply elem_of_app. left. by apply Hact.
    + rewrite lookup_app_r in Hi by lia.
      apply list_lookup_fmap_Some_1 in Hi as (form & -> & Hform).
      split; [done|]. intros _. apply elem_of_app. right.
      apply elem_of_seq. apply lookup_lt_Some in Hform. lia.
Qed.

(** X4. Between two events a job is either active, in the queue and
    waiting for the answer to its request, or it has succeeded or failed
    and is neither in the queue nor waiting for anything; no job is left
    pending. *)
Theorem job_places (s : State) (j : nat) (job : SyncJob) :
  reachable s → heap s !! j = Some job →
  (job_status job = active ∧ j ∈ syncJobs s ∧ TGetForm j ∈ tasks s) ∨
  ((job_status job = success ∨ job_status job = error) ∧
   (j ∉ syncJobs s) ∧ (TGetForm j ∉ tasks s)).
Proof.
  intros Hr Hj. pose proof (reachable_Inv s Hr) as HI.
  destruct (reachable_jobs s Hr j job Hj) as [Hnp Hact].
  destruct (job_status job) eqn:Est; try done.
  - left. split; [done|]. split; [by apply Hact|].
    apply elem_of_getform_jobs, (inv_queue_getform s HI). by apply Hact.
  - right. split; [by left|]. split.
    + intros Hin. apply (inv_queue_active s HI) in Hin.
      unfold status_at in Hin. rewrite Hj in Hin. simpl in Hin. congruence.
    + intros Hin. apply elem_of_getform_jobs, (inv_getform_active s HI) in Hin.
      unfold status_at in Hin. rewrite Hj in Hin. simpl in Hin. congruence.
  - right. split; [by right|]. split.
    + intros Hin. apply (inv_queue_active s HI) in Hin.
      unfold status_at in Hin. rewrite Hj in Hin. simpl in Hin. congruence.
    + intros Hin. apply elem_of_getform_jobs, (inv_getform_active s HI) in Hin.
      unfold status_at in Hin. rewrite Hj in Hin. simpl in Hin. congruence.
Qed.

Lemma job_places_witness :
  (job_status (with_status active job0) = active ∧ 0 ∈ syncJobs before_pass ∧
   TGetForm 0 ∈ tasks before_pass) ∨
  ((job_status (with_status active job0) = success ∨
    job_status (with_status active job0) = error) ∧
   (0 ∉ syncJobs before_pass) ∧ (TGetForm 0 ∉ tasks before_pass)).
Proof.
  apply (job_places before_pass 0 (with_status active job0)
           before_pass_reachable).
  reflexivity.
Defined.

(** X5. A call of the driver made while the queue holds a job changes
    nothing at all, whatever list it is given: the flag is true already
    and every job of the queue is active. *)
Theorem synchronize_while_running
    (forms : option (list FormEntry)) (s : State) :
  reachable s → syncJobs s ≠ [] → synchronize forms s = s.
Proof.
  intros Hr Hq. rewrite synchronize_busy by (by apply reachable_Inv || done).
  apply State_eq; try done. simpl. symmetry. by apply reachable_flag_queue.
Qed.

Lemma synchronize_while_running_witness :
  synchronize (Some two_forms) before_pass = before_pass.
Proof.
  apply (synchronize_while_running (Some two_forms) before_pass
           before_pass_reachable).
  discriminate.
Defined.

(** ** One request for each job *)

Lemma getForm_calls_app cs cs' :
  getForm_calls (cs ++ cs') = getForm_calls cs ++ getForm_calls cs'.
Proof. apply filter_app. Qed.

(** X6. The requests for forms that have been made are, in their order,
    those of the jobs that have been made, each with the table name and
    the reference of its job: every job has had one request, no job has
    had two, and no request was made for anything else. *)
Theorem requests_match_jobs (s : State) :
  reachable s →
  getForm_calls (calls s) =
  map (λ job, CGetForm (job_tableName job) (job_ref job)) (heap s).
Proof.
  revert s.
  apply (reachable_moved_ind
           (λ s, getForm_calls (calls s) =
                 map (λ job, CGetForm (job_tableName job) (job_ref job))
                     (heap s))); [done|].
  intros s s' _ HI IH Hm.
  destruct Hm as [Hq|formList Hq|Hq|j st job l1 l2 Ht Hj Ha Hst|p data l1 l2 Ht
                 |p response l1 l2 Ht Hp|p data tableNames l1 l2 Ht Hp
                 |p formList l1 l2 Ht Hp E|p formList l1 l2 Ht Hp E
                 |p response l1 l2 Ht Hp]; simpl;
    rewrite ?getForm_calls_app, ?app_nil_r; try done.
  - rewrite IH. apply list_eq. intros i. rewrite !list_lookup_fmap.
    destruct (decide (i = j)) as [->|Hne].
    + rewrite list_lookup_insert_eq by (by eapply lookup_lt_Some).
      by rewrite Hj.
    + by rewrite list_lookup_insert_ne.
  - rewrite IH, map_app, map_map. f_equal.
    unfold getForm_calls. apply filter_all. intros c Hc.
    apply list_elem_of_fmap in Hc as (form & -> & _). done.
Qed.

Lemma requests_match_jobs_witness :
  getForm_calls (calls before_pass) = [CGetForm "incident" ref0].
Proof. apply (requests_match_jobs before_pass before_pass_reachable). Defined.

(** ** Passes and runs that repeat *)

(** X7. A status-aggregation pass that follows another changes nothing
    more. *)
Theorem updateSyncStatus_twice (s : State) :
  statusUpdate s = false →
  updateSyncStatus (updateSyncStatus s) = updateSyncStatus s.
Proof.
  intros Hidle. rewrite (updateSyncStatus_idle s Hidle).
  rewrite updateSyncStatus_idle by done. simpl.
  assert (Hf : filter (λ j, job_open (heap s) j = true)
                 (filter (λ j, job_open (heap s) j = true) (syncJobs s)) =
               filter (λ j, job_open (heap s) j = true) (syncJobs s)).
  { apply filter_all. intros j Hj. by apply list_elem_of_filter in Hj as [? _]. }
  by rewrite Hf.
Qed.

Lemma updateSyncStatus_twice_witness :
  updateSyncStatus (updateSyncStatus three_jobs) = updateSyncStatus three_jobs.
Proof. apply (updateSyncStatus_twice three_jobs). reflexivity. Defined.

(** X8. Running a job a second time does nothing: whatever the state and
    the job, [run] after [run] is [run], so one request at most goes out
    for it. *)
Theorem run_twice (self : nat) (s : State) :
  run self (run self s) = run self s.
Proof.
  destruct (heap s !! self) as [job|] eqn:Hjob.
  - destruct (decide (job_status job = pending)) as [Hp|Hp].
    + rewrite (run_go s self job Hjob Hp). apply run_skip.
      unfold status_at. simpl.
      rewrite list_lookup_insert_eq by (by eapply lookup_lt_Some).
      simpl. discriminate.
    + assert (run self s = s) as Hs.
      { apply run_skip. unfold status_at. rewrite Hjob. simpl. congruence. }
      by rewrite !Hs.
  - assert (run self s = s) as Hs by (unfold run; by rewrite Hjob).
    by rewrite !Hs.
Qed.

(** ** Refreshing the form list *)

Lemma form_items_parts (currentList : list FormEntry) :
  proto (form_items currentList) = prior_entry currentList "__proto__" ∧
  ∀ k, k ≠ "__proto__" →
       own (form_items currentList) !! k = prior_entry currentList k.
Proof.
  unfold prior_entry.
  induction currentList as [|item l [IHp IHo]] using rev_ind; [done|].
  assert (form_items (l ++ [item]) =
          items_set (tableName item) item (form_items l)) as ->
    by (unfold form_items; by rewrite foldl_app).
  unfold items_set.
  destruct (decide (tableName item = "__proto__")) as [E|E]; cbn [own proto].
  - split.
    + rewrite filter_app, filter_cons, filter_nil, decide_True by done.
      by rewrite last_snoc.
    + intros k Hk. rewrite IHo by done.
      rewrite filter_app, filter_cons, filter_nil.
      rewrite decide_False by congruence. by rewrite app_nil_r.
  - split.
    + rewrite IHp. rewrite filter_app, filter_cons, filter_nil.
      rewrite decide_False by done. by rewrite app_nil_r.
    + intros k Hk. rewrite filter_app, filter_cons, filter_nil.
      destruct (decide (tableName item = k)) as [->|Hne].
      * rewrite lookup_insert_eq. by rewrite last_snoc.
      * rewrite lookup_insert_ne by done. rewrite app_nil_r. by apply IHo.
Qed.

Lemma form_items_get (currentList : list FormEntry) (k : string) prior :
  prior_entry currentList k = Some prior →
  items_get k (form_items currentList) = IEntry prior.
Proof.
  intros Hprior. destruct (form_items_parts currentList) as [Hp Ho].
  unfold items_get. destruct (decide (k = "__proto__")) as [->|Hk].
  - by rewrite Hp, Hprior.
  - by rewrite (Ho k Hk), Hprior.
Qed.

Lemma form_entry_prior currentList tables formData prior :
  prior_entry currentList (t formData) = Some prior →
  download (form_entry (form_items currentList) tables formData) =
  download prior.
Proof.
  intros Hprior. unfold form_entry. simpl.
  by rewrite (form_items_get currentList (t formData) prior Hprior).
Qed.

(** X9. Whatever the table name of a form of the catalog, if the prior
    list has entries of that name, the new entry takes the [download]
    value of the last of them. *)
Theorem updateFormList_retains
    (currentList : list FormEntry) (tables : list string)
    (data : list FormData) (i : nat) (formData : FormData)
    (prior : FormEntry) :
  data !! i = Some formData →
  prior_entry currentList (t formData) = Some prior →
  ∃ form, updateFormList currentList tables data !! i = Some form ∧
          tableName form = t formData ∧
          download form = download prior.
Proof.
  intros Hi Hprior. rewrite updateFormList_map.
  exists (form_entry (form_items currentList) tables formData).
  split; [by rewrite list_lookup_fmap, Hi|]. split; [done|].
  by apply form_entry_prior.
Qed.

Lemma updateFormList_retains_witness :
  ∃ form, updateFormList two_forms [] catalog !! 1 = Some form ∧
          tableName form = "assessment" ∧
          download form = Some false.
Proof.
  apply (updateFormList_retains two_forms [] catalog 1
           {| n := "Assessment"; t := "assessment"; r := ref0 |}
           {| name := "Assessment"; tableName := "assessment"; ref := ref0;
              installed := false; download := Some false |});
    reflexivity.
Defined.

Lemma prior_entry_result currentList tables data formData :
  formData ∈ data →
  ∃ prior, prior_entry (updateFormList currentList tables data) (t formData)
           = Some prior ∧
           download prior =
           download (form_entry (form_items currentList) tables formData).
Proof.
  intros Hin. rewrite updateFormList_map. unfold prior_entry.
  set (items := form_items currentList).
  destruct (last (filter (λ item, tableName item = t formData)
                    (map (form_entry items tables) data)))
    as [prior|] eqn:El.
  - exists prior. split; [done|].
    apply last_Some_elem_of in El.
    apply list_elem_of_filter in El as [Hname Hprior].
    apply list_elem_of_fmap in Hprior as (formData' & -> & _).
    unfold form_entry in *. simpl in *. by rewrite Hname.
  - apply last_None in El.
    assert (Hmem : form_entry items tables formData ∈
              filter (λ item, tableName item = t formData)
                (map (form_entry items tables) data)).
    { apply list_elem_of_filter. split; [done|].
      by apply (list_elem_of_fmap_2 (form_entry items tables)). }
    rewrite El in Hmem. by apply elem_of_nil in Hmem.
Qed.

(** X10. Refreshing a list against the catalog and the tables it was
    made from gives the same list again, whatever the names in it. *)
Theorem updateFormList_again
    (currentList : list FormEntry) (tables : list string)
    (data : list FormData) :
  updateFormList (updateFormList currentList tables data) tables data =
  updateFormList currentList tables data.
Proof.
  rewrite (updateFormList_map (updateFormList _ _ _)).
  rewrite (updateFormList_map currentList).
  apply list_eq. intros i. rewrite !list_lookup_fmap.
  destruct (data !! i) as [formData|] eqn:Hi; [|done]. simpl. f_equal.
  destruct (prior_entry_result currentList tables data formData)
    as (prior & Hprior & Hd); [by eapply list_elem_of_lookup_2|].
  rewrite <- updateFormList_map.
  pose proof (form_entry_prior _ tables formData prior Hprior) as Hnew.
  unfold form_entry in *. simpl in *. f_equal. by rewrite Hnew, Hd.
Qed.

Example updateFormList_again_example :
  updateFormList two_forms ["incident"] catalog = two_forms.
Proof. reflexivity. Qed.

Lemma prior_entry_nodup (l : list FormEntry) : ∀ i prior,
  NoDup (map tableName l) → l !! i = Some prior →
  prior_entry l (tableName prior) = Some prior.
Proof.
  unfold prior_entry.
  induction l as [|item l IH]; intros i prior Hnd Hi; [done|].
  simpl in Hnd. apply NoDup_cons in Hnd as [Hitem Hnd].
  rewrite filter_cons. destruct i as [|i]; simpl in Hi.
  - injection Hi as ->. rewrite decide_True by done.
    rewrite filter_none; [done|]. intros other Hother E.
    apply Hitem. rewrite <- E. by apply (list_elem_of_fmap_2 tableName).
  - rewrite decide_False; [by apply (IH i)|].
    intros E. apply Hitem. rewrite E.
    apply (list_elem_of_fmap_2 tableName). by eapply list_elem_of_lookup_2.
Qed.

(** X11. When the prior list is a list for the same catalog, with one
    entry for each form and no table listed twice, a refresh keeps every
    [download] value as it was: the choices made survive. *)
Theorem updateFormList_keeps_choices
    (currentList : list FormEntry) (tables : list string)
    (data : list FormData) :
  map tableName currentList = map t data →
  NoDup (map t data) →
  map download (updateFormList currentList tables data) =
  map download currentList.
Proof.
  intros Hnames Hnd. rewrite updateFormList_map, map_map.
  apply list_eq. intros i. rewrite !list_lookup_fmap.
  assert (Hi : map tableName currentList !! i = map t data !! i)
    by by rewrite Hnames.
  rewrite !list_lookup_fmap in Hi.
  destruct (data !! i) as [formData|] eqn:Ed;
    destruct (currentList !! i) as [prior|] eqn:Ec; try done.
  simpl in *. injection Hi as Hi. f_equal.
  apply (form_entry_prior currentList tables formData prior). rewrite <- Hi.
  apply (prior_entry_nodup currentList i); [by rewrite Hnames | done].
Qed.

Lemma updateFormList_keeps_choices_witness :
  map download (updateFormList two_forms [] catalog) = map download two_forms.
Proof.
  apply (updateFormList_keeps_choices two_forms [] catalog); [reflexivity|].
  apply NoDup_cons. split.
  - intros H. apply list_elem_of_singleton in H. discriminate.
  - apply NoDup_singleton.
Defined.

(** ** The first synchronisation *)

Lemma form_entry_fresh tables formData :
  plain_key (t formData) →
  form_entry (form_items []) tables formData =
  {| name := n formData; tableName := t formData; ref := r formData;
     installed := bool_decide (t formData ∈ tables);
     download := Some true |}.
Proof.
  intros [Hk Hp]. unfold form_entry, items_get, form_items. simpl.
  rewrite (decide_False (P := t formData = "__proto__")) by done.
  rewrite lookup_empty.
  rewrite (decide_False (P := t formData ∈ object_prototype_keys)) by done.
  f_equal.
  destruct (decide (indexOf tables (t formData) = (-1)%Z)) as [E|E].
  - apply indexOf_absent in E. by rewrite bool_decide_eq_false_2.
  - rewrite bool_decide_eq_true_2; [done|].
    destruct (decide (t formData ∈ tables)) as [|Hn]; [done|].
    by apply indexOf_absent in Hn.
Qed.

Lemma selected_fresh tables data :
  Forall (λ formData, plain_key (t formData)) data →
  selected (updateFormList [] tables data) = updateFormList [] tables data.
Proof.
  intros Hplain. unfold selected. apply filter_all. intros form Hin.
  rewrite updateFormList_map in Hin.
  apply list_elem_of_fmap in Hin as (formData & -> & Hd).
  rewrite form_entry_fresh; [done|].
  by apply (proj1 (Forall_forall _ _) Hplain).
Qed.

(** X12. A call of the driver made with an empty queue and without a
    list, answered by a catalog in which no table has the name of a
    property of [Object.prototype], starts one job for every form of the
    catalog, in the order of the catalog, whether or not the table is
    installed already; with an empty catalog it starts none and the flag
    is false again. *)
Theorem first_synchronization
    (s : State) (forms : option (list FormEntry))
    (data : list FormData) (tableNames : list string) :
  reachable s → syncJobs s = [] →
  forms = None ∨ forms = Some [] →
  Forall (λ formData, plain_key (t formData)) data →
  ∃ s',
    steps [EvSynchronize forms;
           EvFormListOk (length (promises s)) data;
           EvTablesOk (length (promises s)) tableNames;
           EvThen (length (promises s))] s = Some s' ∧
    heap s' =
      heap s ++
      map (λ formData, {| job_type := "form"; job_mode := "pull";
                          job_tableName := t formData; job_ref := r formData;
                          job_status := active |}) data ∧
    syncJobs s' = seq (length (heap s)) (length data) ∧
    syncInProgress s' = bool_decide (data ≠ []).
Proof.
  intros Hr Hq Hforms Hplain. pose proof (reachable_Inv s Hr) as HI.
  eexists. split; [by apply driver_fetched|].
  set (formList := updateFormList [] tableNames data).
  pose proof (Inv_resolved formList [CFormList; CTables] s HI) as HI'.
  assert (Hsel : selected formList = formList) by by apply selected_fresh.
  assert (Hlen : length formList = length data)
    by (unfold formList; by rewrite updateFormList_map, length_map).
  destruct data as [|formData data].
  - rewrite synchronize_then_none by done. simpl. by rewrite Hq, app_nil_r.
  - assert (Hne : selected formList ≠ []).
    { rewrite Hsel. intros E. by rewrite E in Hlen. }
    rewrite synchronize_then_some by done.
    rewrite Hsel. simpl heap. simpl syncJobs. simpl syncInProgress.
    rewrite Hq, Hlen. split; [|done]. f_equal.
    unfold formList. rewrite updateFormList_map, map_map.
    apply map_ext_in. intros fd Hfd. rewrite form_entry_fresh; [done|].
    apply (proj1 (Forall_forall _ _) Hplain). by apply list_elem_of_In.
Qed.

Lemma first_synchronization_witness :
  ∃ s',
    steps [EvSynchronize None; EvFormListOk 1 catalog;
           EvTablesOk 1 ["incident"]; EvThen 1] after_one_run = Some s' ∧
    heap s' =
      heap after_one_run ++
      map (λ formData, {| job_type := "form"; job_mode := "pull";
                          job_tableName := t formData; job_ref := r formData;
                          job_status := active |}) catalog ∧
    syncJobs s' = seq 1 2 ∧
    syncInProgress s' = bool_decide (catalog ≠ []).
Proof.
  apply (first_synchronization after_one_run None catalog ["incident"]
           after_one_run_reachable eq_refl (or_introl eq_refl)).
  apply (bool_decide_unpack _). vm_compute. exact I.
Defined.

(** ** The validation rules *)

(** X13. An error message given in the options, if it is not empty, is
    the message of each of the four rules; the two range rules then list
    no error for [min] and [max], even when the bounds are given. *)
Theorem rule_custom_message (options : emValidate.Options) (e : string) :
  emValidate.opt_error options = Some e → e ≠ "" →
  emValidate.message (emValidate.isNotEmpty options) = e ∧
  emValidate.message (emValidate.isIntInRange options) = e ∧
  emValidate.message (emValidate.isFloatInRange options) = e ∧
  emValidate.message (emValidate.isJson options) = e ∧
  emValidate.errors (emValidate.isIntInRange options) = ["number"; "pattern"] ∧
  emValidate.errors (emValidate.isFloatInRange options) = ["number"].
Proof.
  intros He Hne.
  assert (Hf : emValidate.falsy (Some e) = false)
    by by apply bool_decide_eq_false_2.
  unfold emValidate.isNotEmpty, emValidate.isJson, emValidate.isIntInRange,
    emValidate.isFloatInRange, emValidate.inRange.
  rewrite He, Hf. simpl.
  by destruct (emValidate.opt_min options) as [[[] ? ?]|],
              (emValidate.opt_max options) as [[[] ? ?]|].
Qed.

Lemma rule_custom_message_witness :
  emValidate.message
    (emValidate.isIntInRange
       {| emValidate.opt_error := Some "Age in years";
          emValidate.opt_min := Some zero_bound; emValidate.opt_max := None |})
  = "Age in years".
Proof.
  apply (rule_custom_message
           {| emValidate.opt_error := Some "Age in years";
              emValidate.opt_min := Some zero_bound; emValidate.opt_max := None |}
           "Age in years"); [reflexivity | discriminate].
Defined.



(** ** The directives of a field *)

Lemma encode_plain (name : string) (options : option emValidate.Options) :
  plain_key name →
  emValidate.encode name options =
  match Directives.directive_of (name, options) with
  | Some rule => rule
  | None => emValidate.ENull
  end.
Proof.
  intros [Hk Hp]. unfold Directives.directive_of, emValidate.encode,
    emValidate.rules. simpl.
  repeat (case_decide; [done|]). done.
Qed.

Lemma collect_plain (requires : Directives.Requires) :
  (∀ name, name ∈ requires.*1 → plain_key name) →
  Directives.collect requires = Some (omap Directives.directive_of requires).
Proof.
  induction requires as [|[name options] requires IH]; intros Hplain; [done|].
  simpl. rewrite encode_plain by (apply Hplain; apply list_elem_of_here).
  rewrite IH by (intros k Hk; apply Hplain; by apply elem_of_cons; right).
  unfold Directives.directive_of. simpl.
  by destruct (emValidate.rules name).
Qed.

Lemma collect_app (requires requires' : Directives.Requires) :
  Directives.collect (requires ++ requires') =
  ds ← Directives.collect requires;
  ds' ← Directives.collect requires';
  Some (ds ++ ds').
Proof.
  induction requires as [|[name options] requires IH]; simpl.
  - by destruct (Directives.collect requires').
  - destruct (emValidate.encode name options) eqn:E; simpl; try done;
      try (rewrite IH; destruct (Directives.collect requires); simpl;
           [by destruct (Directives.collect requires') | done]).
    destruct (negb _); rewrite IH; destruct (Directives.collect requires);
      simpl; try done; by destruct (Directives.collect requires').
Qed.

(** X15. A field that is not required and has a [requires] object whose
    names are no properties of [Object.prototype] is left as it is and
    gets, in the order of the object, the directives of the names that
    are rules; the other names are passed over. *)
Theorem getDirectives_rules
    (field : Directives.Field) (requires : Directives.Requires) :
  Directives.field_requires field = Some requires →
  Directives.field_required field = false →
  (∀ name, name ∈ requires.*1 → plain_key name) →
  Directives.getDirectives field =
  (field, Some (omap Directives.directive_of requires)).
Proof.
  intros Hreq Hnot Hplain. unfold Directives.getDirectives.
  rewrite Hreq, Hnot. simpl. rewrite collect_plain by done.
  f_equal. destruct field. simpl in *. by rewrite Hreq, Hnot.
Qed.

Lemma getDirectives_rules_witness :
  Directives.getDirectives note_field =
  (note_field,
   Some [emValidate.ERule (emValidate.isNotEmpty emValidate.no_options);
         emValidate.ERule (emValidate.isJson emValidate.no_options)]).
Proof.
  apply (getDirectives_rules note_field
           [("isNotEmpty", None); ("isShort", None); ("isJson", None)]
           eq_refl eq_refl).
  intros name Hname. apply (bool_decide_unpack _).
  repeat (apply elem_of_cons in Hname as [->|Hname]; [by vm_compute|]).
  by apply elem_of_nil in Hname.
Defined.

(** X16. For a required field whose [requires] object, that of its
    description or else that of its settings, has no [isNotEmpty], the
    call adds one to this object, where it is, after the other names,
    and the directives are those of the object as it was followed by the
    one of [isNotEmpty]; its message is "Select at least one option" for
    a field with options whose type starts with "list:", "Select a
    value" for another field with options, and "Enter a value"
    otherwise. *)
Theorem getDirectives_required
    (field : Directives.Field) (requires : Directives.Requires) :
  Directives.field_requires field = Some requires ∨
  (Directives.field_requires field = None ∧
   Directives.field_settings field = Some (Some requires)) →
  Directives.field_required field = true →
  "isNotEmpty" ∉ requires.*1 →
  let result := Directives.getDirectives field in
  let requires' :=
    requires ++ [("isNotEmpty", Directives.required_options field)] in
  let notEmpty :=
    emValidate.isNotEmpty
      (default emValidate.no_options (Directives.required_options field)) in
  (Directives.field_requires field = Some requires →
   Directives.field_requires result.1 = Some requires' ∧
   Directives.field_settings result.1 = Directives.field_settings field) ∧
  (Directives.field_requires field = None →
   Directives.field_requires result.1 = None ∧
   Directives.field_settings result.1 = Some (Some requires')) ∧
  Directives.field_type result.1 = Directives.field_type field ∧
  Directives.field_hasOptions result.1 = Directives.field_hasOptions field ∧
  Directives.field_required result.1 = true ∧
  result.2 =
    (λ ds, ds ++ [emValidate.ERule notEmpty]) <$> Directives.collect requires ∧
  emValidate.message notEmpty =
    (if Directives.field_hasOptions field then
       if decide (String.substring 0 5 (Directives.field_type field) = "list:")
       then "Select at least one option" else "Select a value"
     else "Enter a value").
Proof.
  intros Hreq Hrequired Hlacks result requires' notEmpty.
  subst result requires' notEmpty.
  assert (Hcollect :
    Directives.collect
      (requires ++ [("isNotEmpty", Directives.required_options field)]) =
    (λ ds, ds ++ [emValidate.ERule
                    (emValidate.isNotEmpty
                       (default emValidate.no_options
                                (Directives.required_options field)))]) <$>
      Directives.collect requires).
  { rewrite collect_app. simpl. by destruct (Directives.collect requires). }
  assert (Hmessage :
    emValidate.message
      (emValidate.isNotEmpty
         (default emValidate.no_options (Directives.required_options field))) =
    (if Directives.field_hasOptions field then
       if decide (String.substring 0 5 (Directives.field_type field) = "list:")
       then "Select at least one option" else "Select a value"
     else "Enter a value")).
  { unfold Directives.required_options.
    destruct (Directives.field_hasOptions field); [|done]. by case_decide. }
  unfold Directives.getDirectives, Directives.lacks.
  destruct Hreq as [Hreq|[Hreq Hset]].
  - rewrite Hreq, Hrequired. simpl.
    rewrite bool_decide_eq_true_2 by done. simpl.
    repeat split; try done.
  - rewrite Hreq, Hset, Hrequired. simpl.
    rewrite bool_decide_eq_true_2 by done. simpl.
    repeat split; try done.
Qed.

Lemma getDirectives_required_witness :
  (Directives.getDirectives age_field).2 =
  (λ ds, ds ++ [emValidate.ERule
                  (emValidate.isNotEmpty emValidate.no_options)]) <$>
    Directives.collect
      [("isIntInRange",
        Some {| emValidate.opt_error := None;
                emValidate.opt_min := Some zero_bound;
                emValidate.opt_max := Some (number_bound "120") |});
       ("isAdult", None)] ∧
  Directives.field_settings (Directives.getDirectives choice_field).1 =
  Some (Some [("isShort", None);
              ("isNotEmpty",
               Some {| emValidate.opt_error := Some "Select a value";
                       emValidate.opt_min := None;
                       emValidate.opt_max := None |})]).
Proof.
  split.
  - refine (proj1 (proj2 (proj2 (proj2 (proj2 (proj2
      (getDirectives_required age_field _ (or_introl eq_refl) eq_refl _))))))).
    intros H. repeat (apply elem_of_cons in H as [H|H]; [discriminate|]).
    by apply elem_of_nil in H.
  - refine (proj2 (proj1 (proj2
      (getDirectives_required choice_field [("isShort", None)]
         (or_intror (conj eq_refl eq_refl)) eq_refl _)) eq_refl)).
    intros H. repeat (apply elem_of_cons in H as [H|H]; [discriminate|]).
    by apply elem_of_nil in H.
Defined.

(** X17. A second call for the same field gives the directives of the
    first and changes the field no more. *)
Theorem getDirectives_twice (field : Directives.Field) :
  Directives.getDirectives (Directives.getDirectives field).1 =
  Directives.getDirectives field.
Proof.
  assert (Hstable : ∀ (required : bool) requires v,
    (if required && Directives.lacks "isNotEmpty"
          (if required && Directives.lacks "isNotEmpty" requires
           then requires ++ [("isNotEmpty", v)] else requires)
     then (if required && Directives.lacks "isNotEmpty" requires
           then requires ++ [("isNotEmpty", v)] else requires)
            ++ [("isNotEmpty", v)]
     else (if required && Directives.lacks "isNotEmpty" requires
           then requires ++ [("isNotEmpty", v)] else requires)) =
    (if required && Directives.lacks "isNotEmpty" requires
     then requires ++ [("isNotEmpty", v)] else requires)).
  { intros required requires v.
    destruct (required && Directives.lacks "isNotEmpty" requires) eqn:E.
    - apply andb_true_iff in E as [-> _]. simpl.
      unfold Directives.lacks. rewrite bool_decide_eq_false_2; [done|].
      intros Hn. apply Hn. rewrite fmap_app. apply elem_of_app. right.
      apply list_elem_of_here.
    - by rewrite E. }
  destruct field as [type hasOptions required [requires|] settings].
  - unfold Directives.getDirectives. simpl.
    unfold Directives.required_options. simpl.
    by rewrite Hstable.
  - destruct settings as [[requires|]|].
    + unfold Directives.getDirectives. simpl.
      unfold Directives.required_options. simpl.
      by rewrite Hstable.
    + done.
    + done.
Qed.

(** X18. A field without a [requires] object, in its description and in
    its settings, is left as it is, and the call does not throw.  A
    field of type "double" gets the directive of a number with no
    bounds, one of type "integer" that of an integer with no bounds, one
    of type "json" that of a JSON expression, and a field of another
    type none; a required field gets, after it, the directive
    [ng-required], with the message that fits its options. *)
Theorem getDirectives_defaults (field : Directives.Field) :
  Directives.field_requires field = None →
  Directives.field_settings field = None ∨
  Directives.field_settings field = Some None →
  let type := Directives.field_type field in
  let of_type :=
    if decide (type = "double") then
      [emValidate.ERule
         {| emValidate.directives := ∅;
            emValidate.errors := ["number"];
            emValidate.message := "Enter a number" |}]
    else if decide (type = "integer") then
      [emValidate.ERule
         {| emValidate.directives := {[ "ng-pattern" := "/^[-+]?[0-9]*$/" ]};
            emValidate.errors := ["number"; "pattern"];
            emValidate.message := "Enter an integer" |}]
    else if decide (type = "json") then
      [emValidate.ERule
         {| emValidate.directives := {[ "is-json" := "" ]};
            emValidate.errors := ["json"; "parse"];
            emValidate.message := "Enter a valid JSON expression" |}]
    else [] in
  let of_required :=
    if Directives.field_required field then
      [emValidate.ERule
         {| emValidate.directives := {[ "ng-required" := "true" ]};
            emValidate.errors := ["required"];
            emValidate.message :=
              if Directives.field_hasOptions field then
                if decide (String.substring 0 5 type = "list:")
                then "Select at least one option" else "Select a value"
              else "Enter a value" |}]
    else [] in
  Directives.getDirectives field = (field, Some (of_type ++ of_required)).
Proof.
  intros Hreq Hset type of_type of_required.
  subst type of_type of_required.
  unfold Directives.getDirectives. rewrite Hreq.
  assert (Hlacks : Directives.lacks "isNotEmpty"
            (Directives.type_default (Directives.field_type field)) = true).
  { unfold Directives.type_default. by repeat case_decide. }
  assert (Hrequired :
    Directives.collect [("isNotEmpty", Directives.required_options field)] =
    Some [emValidate.ERule
         {| emValidate.directives := {[ "ng-required" := "true" ]};
            emValidate.errors := ["required"];
            emValidate.message :=
              if Directives.field_hasOptions field then
                if decide (String.substring 0 5 (Directives.field_type field)
                           = "list:")
                then "Select at least one option" else "Select a value"
              else "Enter a value" |}]).
  { unfold Directives.required_options.
    destruct (Directives.field_hasOptions field); [|done]. by case_decide. }
  assert (Htype :
    Directives.collect
      (Directives.type_default (Directives.field_type field)) =
    Some
      (if decide (Directives.field_type field = "double") then
         [emValidate.ERule
            {| emValidate.directives := ∅;
               emValidate.errors := ["number"];
               emValidate.message := "Enter a number" |}]
       else if decide (Directives.field_type field = "integer") then
         [emValidate.ERule
            {| emValidate.directives :=
                 {[ "ng-pattern" := "/^[-+]?[0-9]*$/" ]};
               emValidate.errors := ["number"; "pattern"];
               emValidate.message := "Enter an integer" |}]
       else if decide (Directives.field_type field = "json") then
         [emValidate.ERule
            {| emValidate.directives := {[ "is-json" := "" ]};
               emValidate.errors := ["json"; "parse"];
               emValidate.message := "Enter a valid JSON expression" |}]
       else [])).
  { unfold Directives.type_default. by repeat case_decide. }
  destruct Hset as [-> | ->]; simpl; rewrite Hlacks;
    destruct (Directives.field_required field); simpl;
    rewrite ?collect_app, ?Hrequired, Htype, ?app_nil_r; done.
Qed.

Lemma getDirectives_defaults_witness :
  (Directives.getDirectives
     {| Directives.field_type := "double";
        Directives.field_hasOptions := false;
        Directives.field_required := true;
        Directives.field_requires := None;
        Directives.field_settings := Some None |}).2 =
  Some [emValidate.ERule
          {| emValidate.directives := ∅;
             emValidate.errors := ["number"];
             emValidate.message := "Enter a number" |};
        emValidate.ERule
          {| emValidate.directives := {[ "ng-required" := "true" ]};
             emValidate.errors := ["required"];
             emValidate.message := "Enter a value" |}].
Proof.
  rewrite (getDirectives_defaults
             {| Directives.field_type := "double";
                Directives.field_hasOptions := false;
                Directives.field_required := true;
                Directives.field_requires := None;
                Directives.field_settings := Some None |}
             eq_refl (or_intror eq_refl)).
  reflexivity.
Defined.

Lemma collect_throws (requires : Directives.Requires) name options :
  (name, options) ∈ requires →
  emValidate.encode name options = emValidate.ETypeError →
  Directives.collect requires = None.
Proof.
  induction requires as [|[name' options'] requires IH]; intros Hin Hthrow.
  - by apply elem_of_nil in Hin.
  - simpl. apply elem_of_cons in Hin as [E|Hin].
    + injection E as <- <-. by rewrite Hthrow.
    + rewrite (IH Hin Hthrow).
      destruct (emValidate.encode name' options'); simpl; try done.
      by destruct (negb _).
Qed.

(** X19. A [requires] object, that of the description or else that of
    the settings, in which the options of each rule are an object or
    [null], and which has among its names a property of
    [Object.prototype] other than [constructor] and [toString], or
    ["__proto__"], makes the call throw a [TypeError], whatever else the
    object holds. *)
Theorem getDirectives_throws
    (field : Directives.Field) (requires : Directives.Requires)
    (name : string) (options : option emValidate.Options) :
  Directives.field_requires field = Some requires ∨
  (Directives.field_requires field = None ∧
   Directives.field_settings field = Some (Some requires)) →
  (name, options) ∈ requires →
  (name ∈ object_prototype_keys ∧ name ≠ "constructor" ∧ name ≠ "toString") ∨
  name = "__proto__" →
  (Directives.getDirectives field).2 = None.
Proof.
  intros Hreq Hin Hname.
  assert (Hthrow : emValidate.encode name options = emValidate.ETypeError).
  { destruct Hname as [(Hk & Hc & Hs)| ->]; [|done].
    unfold emValidate.encode, emValidate.rules.
    repeat (rewrite decide_False
              by (intros ->; revert Hk; by apply (bool_decide_unpack _))).
    rewrite decide_True by done. unfold emValidate.call_builtin.
    by rewrite !decide_False. }
  unfold Directives.getDirectives.
  destruct Hreq as [Hreq|[Hreq Hset]]; rewrite Hreq, ?Hset; simpl;
    (destruct (_ && _);
     [rewrite collect_app, (collect_throws requires name options); done
     |by apply (collect_throws requires name options)]).
Qed.

Lemma getDirectives_throws_witness :
  (Directives.getDirectives odd_field).2 = None ∧
  (Directives.getDirectives own_field).2 = None.
Proof.
  split.
  - apply (getDirectives_throws odd_field
             [("isNotEmpty", None); ("valueOf", None)] "valueOf" None
             (or_introl eq_refl)).
    + apply elem_of_cons. right. apply list_elem_of_here.
    + left. split; [|split; discriminate].
      apply (bool_decide_unpack _). by vm_compute.
  - apply (getDirectives_throws own_field
             [("hasOwnProperty", Some emValidate.no_options)]
             "hasOwnProperty" (Some emValidate.no_options)
             (or_intror (conj eq_refl eq_refl))).
    + apply list_elem_of_here.
    + left. split; [|split; discriminate].
      apply (bool_decide_unpack _). by vm_compute.
Defined.

(** ** Calls of the driver that come close together *)

(** X20. While the queue is empty, each call of the driver made without
    a list sends a catalog request of its own: after two such calls two
    requests are outstanding, each with its promise and its callback. *)
Theorem synchronize_not_coalesced (s : State) :
  syncJobs s = [] →
  let p := length (promises s) in
  let s' := synchronize None (synchronize (Some []) s) in
  tasks s' = tasks s ++ [TFormList p; TThen p; TFormList (S p); TThen (S p)] ∧
  calls s' = calls s ++ [CFormList; CFormList] ∧
  promises s' = promises s ++ [PPending; PPending] ∧
  heap s' = heap s ∧ syncJobs s' = [].
Proof.
  intros Hq p s'. subst p s'.
  rewrite (synchronize_idle (Some []) s Hq).
  rewrite synchronize_idle by done.
  unfold getFormList. simpl. rewrite length_app. simpl.
  replace (length (promises s) + 1) with (S (length (promises s))) by lia.
  rewrite <- !app_assoc. done.
Qed.

Lemma synchronize_not_coalesced_witness :
  calls (synchronize None (synchronize (Some []) after_one_run)) =
  calls after_one_run ++ [CFormList; CFormList].
Proof. apply (synchronize_not_coalesced after_one_run). reflexivity. Defined.

(** X21. Between two events the queue lists no job twice and lists only
    jobs that exist, and no job has two requests outstanding. *)
Theorem queue_distinct (s : State) :
  reachable s →
  NoDup (syncJobs s) ∧
  (∀ j, j ∈ syncJobs s → j < length (heap s)) ∧
  NoDup (getform_jobs (tasks s)).
Proof.
  intros Hr. pose proof (reachable_Inv s Hr) as HI.
  split; [apply (inv_queue_nodup s HI)|].
  split; [|apply (inv_getform_nodup s HI)].
  intros j Hj. eapply status_at_valid. by apply (inv_queue_active s HI).
Qed.

Lemma queue_distinct_witness : NoDup (syncJobs before_pass).
Proof. apply (queue_distinct before_pass before_pass_reachable). Defined.

(** ** When every job has had its answer *)

Lemma steps_terminal evs : ∀ s s' j job,
  Inv s → steps evs s = Some s' → heap s !! j = Some job →
  is_open (job_status job) = false →
  heap s' !! j = Some job.
Proof.
  induction evs as [|ev evs IH]; intros s s' j job HI Hs Hj Hst; simpl in Hs.
  - by injection Hs as <-.
  - destruct (step ev s) as [s1|] eqn:E; [|done]. simpl in Hs.
    apply (IH s1 s'); try done; [by apply (Inv_step ev s)|].
    destruct (step_job ev s s1 j job HI E Hj) as (job' & Hj' & [->|[Htr _]]);
      [done|].
    destruct (job_status job); try done; inversion Htr.
Qed.

Lemma answers_served (answers : list (nat * option Response)) : ∀ s,
  Inv s →
  NoDup answers.*1 →
  (∀ j, j ∈ answers.*1 ↔ j ∈ syncJobs s) →
  ∃ s', steps (map answer_event answers) s = Some s' ∧
        syncJobs s' = [] ∧
        (answers ≠ [] → syncInProgress s' = false) ∧
        (∀ j o job, (j, o) ∈ answers → heap s !! j = Some job →
           heap s' !! j = Some (with_status (answer_status o) job)).
Proof.
  induction answers as [|[j o] answers IH]; intros s HI Hnd Hjobs.
  - exists s. split; [done|]. split.
    + apply elem_of_nil_inv. intros j Hj. apply Hjobs in Hj.
      by apply elem_of_nil in Hj.
    + split; [done|]. intros j o job Hin. by apply elem_of_nil in Hin.
  - simpl in Hnd. apply NoDup_cons in Hnd as [Hj Hnd].
    assert (Hjq : j ∈ syncJobs s) by (apply Hjobs; apply list_elem_of_here).
    pose proof (inv_queue_getform s HI j Hjq) as Hjt.
    apply elem_of_getform_jobs in Hjt.
    destruct (take_task_elem _ _ Hjt) as [ts Ets].
    pose proof Ets as Esplit.
    apply take_task_split in Esplit as (l1 & l2 & Ht & ->).
    pose proof (inv_queue_active s HI j Hjq) as Hact. unfold status_at in Hact.
    destruct (heap s !! j) as [job|] eqn:Hjob; [|done].
    simpl in Hact. injection Hact as Hact.
    assert (Hst : is_open (answer_status o) = false) by by destruct o.
    assert (Hstep : step (answer_event (j, o)) s =
              Some (updateSyncStatus
                      (set_status j (answer_status o) (set_tasks (l1 ++ l2) s)))).
    { unfold answer_event. destruct o; simpl; by rewrite Ets. }
    rewrite (answered_state s j _ job l1 l2 HI Ht Hjob Hst) in Hstep.
    set (s1 := {| heap := <[j := with_status (answer_status o) job]> (heap s) |})
      in Hstep.
    assert (HI1 : Inv s1) by by apply (Inv_step (answer_event (j, o)) s).
    destruct (IH s1 HI1 Hnd) as (s' & Hsteps & Hq & Hf & Hh).
    { intros i. simpl. rewrite list_elem_of_filter, <- Hjobs. simpl.
      rewrite elem_of_cons. split; [|intros [? [->|?]]; done].
      intros Hi. split; [intros ->; done | by right]. }
    exists s'. split; [simpl map; simpl steps; by rewrite Hstep|].
    split; [done|]. split.
    + intros _. destruct answers as [|a answers]; [|by apply Hf].
      simpl in Hsteps. injection Hsteps as <-. simpl.
      apply bool_decide_eq_false_2. 
      assert (filter (λ i, i ≠ j) (syncJobs s) = []) as ->; [|simpl; lia].
      apply filter_none. intros i Hi Hne. apply Hjobs in Hi.
      simpl in Hi. apply list_elem_of_singleton in Hi. done.
    + intros i o' job' Hin Hi. apply elem_of_cons in Hin as [E|Hin].
      * injection E as -> ->. rewrite Hjob in Hi. injection Hi as <-.
        apply (steps_terminal (map answer_event answers) s1 s'); try done.
        simpl. apply list_lookup_insert_eq. by eapply lookup_lt_Some.
      * apply Hh; [done|]. simpl. rewrite list_lookup_insert_ne; [done|].
        intros <-. apply Hj. by apply (list_elem_of_fmap_2 fst _ (j, o')).
Qed.

(** X22. From a state between two events in which the queue holds jobs:
    once every job of the queue has had the answer to its request, in
    whatever order, the queue is empty, the flag is false, and each of
    these jobs is a success if its request succeeded and an error if it
    failed, with nothing else of it changed. *)
Theorem all_answered (s : State) (answers : list (nat * option Response)) :
  reachable s →
  syncJobs s ≠ [] →
  NoDup answers.*1 →
  (∀ j, j ∈ answers.*1 ↔ j ∈ syncJobs s) →
  ∃ s', steps (map answer_event answers) s = Some s' ∧
        syncJobs s' = [] ∧
        syncInProgress s' = false ∧
        (∀ j o job, (j, o) ∈ answers → heap s !! j = Some job →
           heap s' !! j = Some (with_status (answer_status o) job)).
Proof.
  intros Hr Hq Hnd Hjobs.
  destruct (answers_served answers s (reachable_Inv s Hr) Hnd Hjobs)
    as (s' & Hsteps & Hq' & Hf & Hh).
  exists s'. repeat split; try done. apply Hf. intros ->.
  apply Hq, elem_of_nil_inv. intros j Hj. apply Hjobs in Hj.
  by apply elem_of_nil in Hj.
Qed.

Lemma all_answered_witness :
  ∃ s', steps (map answer_event [(0, Some unavailable)]) before_pass = Some s' ∧
        syncJobs s' = [] ∧
        syncInProgress s' = false ∧
        (∀ j o job, (j, o) ∈ [(0, Some unavailable)] →
           heap before_pass !! j = Some job →
           heap s' !! j = Some (with_status (answer_status o) job)).
Proof.
  apply (all_answered before_pass [(0, Some unavailable)]
           before_pass_reachable).
  - discriminate.
  - apply NoDup_singleton.
  - intros j. simpl. by rewrite !list_elem_of_singleton.
Defined.
